(** * Cone-beam projector pair of mbirjax_sandbox: a shallow embedding

    The development follows [src/mbirjax/cone_beam.py]: the parameter
    validation of [ConeBeamModel], the separable sparse kernel builder
    [compute_sparse_Bij_Cij_single_view], and the two projectors built on it.

    Conventions of the embedding.
    - Floating-point numbers are read as real numbers ([R]); integer arrays
      hold [Z]; array shapes are [nat].
    - A rank-2 array is an [array2]: its rows, with the column count kept
      explicitly so that an array with no row still has a shape. A
      rank-1 array is a list.  [voxel_values], whose rank the forward
      projector tests, is an [ndarray]: a shape and row-major data.
    - Array arithmetic follows the NumPy broadcasting rule (shapes are
      aligned on their last axis; an axis of length 1 stretches; anything
      else is rejected), so a call returns [Raise] where NumPy rejects the
      shapes.
    - Python exceptions are values of [exn]; a function that can raise
      returns a [result].
    - A helper written for one point is applied to every (voxel, slice)
      pair of a call; the call fails when the helper fails for some pair.
    - Reading an array out of range clamps the index and updating it out of
      range leaves the array alone, as JAX does; a negative index counts
      from the end of the axis.
    - The [jax.jit] decorator and the [warnings.warn] calls carry no value
      and are left out. *)

From Stdlib Require Import String Ascii DecimalString.
From Stdlib Require Import Reals Lra Lia ZArith Bool Arith List.
Import ListNotations.

Open Scope R_scope.

(** ** Exceptions and results *)

Inductive exn : Type :=
| ValueError (msg : string).

Inductive result (A : Type) : Type :=
| Ok (a : A)
| Raise (e : exn).

Arguments Ok {A} a.
Arguments Raise {A} e.

Definition bind {A B : Type} (r : result A) (f : A -> result B) : result B :=
  match r with
  | Ok a => f a
  | Raise e => Raise e
  end.

Notation "x <- c ;; k" := (bind c (fun x => k))
  (at level 61, c at next level, right associativity).
Notation "' p <- c ;; k" := (bind c (fun x => let 'p := x in k))
  (at level 61, p pattern, c at next level, right associativity).

Fixpoint mapM {A B : Type} (f : A -> result B) (l : list A) : result (list B) :=
  match l with
  | [] => Ok []
  | a :: l' => b <- f a ;; bs <- mapM f l' ;; Ok (b :: bs)
  end.

(** ** Arrays in the style of NumPy *)

Module NumPy.

Class Default (A : Type) : Type := default : A.
#[export] Instance Default_R : Default R := 0.
#[export] Instance Default_Z : Default Z := 0%Z.
#[export] Instance Default_bool : Default bool := false.

Record array2 (A : Type) : Type := mkArray2 { ncols : nat; rows : list (list A) }.
Arguments mkArray2 {A} ncols rows.
Arguments ncols {A} a.
Arguments rows {A} a.

Record ndarray : Type := mkNdarray { shape : list nat; data : list R }.

Definition nrows {A} (a : array2 A) : nat := length (rows a).

Definition shape2 {A} (a : array2 A) : nat * nat := (nrows a, ncols a).

(** [a[k, t]], for indices in range. *)
Definition get {A} `{Default A} (a : array2 A) (k t : nat) : A :=
  nth t (nth k (rows a) []) default.

Definition lookup {A} (a : array2 A) (k t : nat) : option A :=
  match nth_error (rows a) k with
  | Some r => nth_error r t
  | None => None
  end.

(** [voxel_values[n, s]] of a rank-2 [ndarray] with [S] columns. *)
Definition nd_get2 (a : ndarray) (S n s : nat) : R := nth (n * S + s) (data a) 0.

Definition map2d {A B} (f : A -> B) (a : array2 A) : array2 B :=
  mkArray2 (ncols a) (map (map f) (rows a)).

Fixpoint map2 {A B C} (f : A -> B -> C) (u : list A) (v : list B) : list C :=
  match u, v with
  | a :: u', b :: v' => f a b :: map2 f u' v'
  | _, _ => []
  end.

Fixpoint map3 {A B C D} (f : A -> B -> C -> D)
         (u : list A) (v : list B) (w : list C) : list D :=
  match u, v, w with
  | a :: u', b :: v', c :: w' => f a b c :: map3 f u' v' w'
  | _, _, _ => []
  end.

(** A rank-1 array of length n seen as shape (1, n), which is how
    broadcasting aligns it with a rank-2 array. *)
Definition row_vec {A} (v : list A) : array2 A := mkArray2 (length v) [v].

(** [v.reshape((-1, 1))]. *)
Definition col_vec {A} (v : list A) : array2 A := mkArray2 1 (map (fun x => [x]) v).

Definition incompatible_shapes : exn :=
  ValueError "Incompatible shapes for broadcasting".

(** The broadcasting rule on one axis. *)
Definition bdim (a b : nat) : option nat :=
  if a =? b then Some a
  else if a =? 1 then Some b
  else if b =? 1 then Some a
  else None.

(** Index into an axis of length [n] that may have been stretched. *)
Definition bidx (n i : nat) : nat := if n =? 1 then 0%nat else i.

(** Elementwise binary operation on two rank-2 arrays with broadcasting. *)
Definition broadcast2 {A B C} `{Default A} `{Default B}
           (f : A -> B -> C) (a : array2 A) (b : array2 B) : result (array2 C) :=
  match bdim (nrows a) (nrows b), bdim (ncols a) (ncols b) with
  | Some r, Some c =>
      Ok (mkArray2 c
            (map (fun k =>
                    map (fun t => f (get a (bidx (nrows a) k) (bidx (ncols a) t))
                                    (get b (bidx (nrows b) k) (bidx (ncols b) t)))
                        (seq 0 c))
                 (seq 0 r)))
  | _, _ => Raise incompatible_shapes
  end.

(** [jnp.tile(v, reps=(reps, 1))]: [reps] copies of the row [v]. *)
Definition tile {A} (v : list A) (reps : nat) : array2 A :=
  mkArray2 (length v) (repeat v reps).

(** [a.T]. *)
Definition transpose {A} `{Default A} (a : array2 A) : array2 A :=
  mkArray2 (nrows a)
           (map (fun t => map (fun r => nth t r default) (rows a)) (seq 0 (ncols a))).

(** [a.flatten()], row-major. *)
Definition flatten {A} (a : array2 A) : list A := concat (rows a).

(** [jnp.arange(n)]. *)
Definition arange (n : nat) : list Z := map Z.of_nat (seq 0 n).

(** [range(lo, lo + len)] over the integers. *)
Definition zrange (lo : Z) (len : nat) : list Z :=
  map (fun t => (lo + Z.of_nat t)%Z) (seq 0 len).

(** [jnp.unravel_index(indices, (R, C))]: indices are clipped to
    [-R*C, R*C - 1] and then taken apart by floor division and modulo. *)
Definition unravel_index (indices : list Z) (shp : nat * nat) : list Z * list Z :=
  let '(nr, nc) := shp in
  let total := Z.of_nat (nr * nc) in
  let clipped := map (fun i => Z.min (Z.max i (- total)) (total - 1)) indices in
  (map (fun i => ((i mod total) / Z.of_nat nc)%Z) clipped,
   map (fun i => (i mod Z.of_nat nc)%Z) clipped).

(** [jnp.round(x).astype(int)]: to the nearest integer, ties to even. *)
Definition round (x : R) : Z :=
  let f := Zfloor x in
  let d := x - IZR f in
  if Rlt_dec d (1 / 2) then f
  else if Rlt_dec (1 / 2) d then (f + 1)%Z
  else if Z.even f then f else (f + 1)%Z.

(** [jnp.arctan2(y, x)]. *)
Definition arctan2 (y x : R) : R :=
  if Rlt_dec 0 x then atan (y / x)
  else if Rlt_dec x 0 then
         if Rle_dec 0 y then atan (y / x) + PI else atan (y / x) - PI
  else if Rlt_dec 0 y then PI / 2
  else if Rlt_dec y 0 then - (PI / 2)
  else 0.

(** A boolean used as a number, as in [value * (index >= 0)]. *)
Definition b2r (b : bool) : R := if b then 1 else 0.

Definition sum_list (l : list R) : R := fold_right Rplus 0 l.

Definition dot (u v : list R) : R := sum_list (map2 Rmult u v).

Definition zeros (nr nc : nat) : array2 R := mkArray2 nc (repeat (repeat 0 nc) nr).

(** Negative indices count from the end of the axis. *)
Definition wrap (n : nat) (i : Z) : Z :=
  if (i <? 0)%Z then (i + Z.of_nat n)%Z else i.

(** Reading [a[i]] out of range: JAX clamps the index into the axis. *)
Definition clamp (n : nat) (i : Z) : nat :=
  Z.to_nat (Z.min (Z.max (wrap n i) 0) (Z.of_nat n - 1)).

(** Updating [a[i]] out of range: JAX drops the update. *)
Definition in_bounds (n : nat) (i : Z) : option nat :=
  let w := wrap n i in
  if ((0 <=? w) && (w <? Z.of_nat n))%Z then Some (Z.to_nat w) else None.

(** [a[r, c]] with integer index arrays. *)
Definition gather (a : array2 R) (r c : Z) : R :=
  get a (clamp (nrows a) r) (clamp (ncols a) c).

Fixpoint update {A} (f : A -> A) (i : nat) (l : list A) : list A :=
  match l, i with
  | [], _ => []
  | x :: l', O => f x :: l'
  | x :: l', S i' => x :: update f i' l'
  end.

Definition add_at (a : array2 R) (r c : Z) (v : R) : array2 R :=
  match in_bounds (nrows a) r, in_bounds (ncols a) c with
  | Some r', Some c' =>
      mkArray2 (ncols a) (update (update (fun x => x + v) c') r' (rows a))
  | _, _ => a
  end.

(** [index_add(a, (rs, cs), vs)]: every value is added at its destination;
    values with the same destination are summed. *)
Definition index_add (a : array2 R) (idx : list Z * list Z) (vs : list R) : array2 R :=
  fold_left (fun acc e => let '(r, c, v) := e in add_at acc r c v)
            (combine (combine (fst idx) (snd idx)) vs) a.

(** [a * x + b * y] on arrays of the same shape. *)
Definition axpby (a : R) (x : list R) (b : R) (y : list R) : list R :=
  map2 (fun u v => a * u + b * v) x y.

Definition axpby2 (a : R) (x : array2 R) (b : R) (y : array2 R) : array2 R :=
  mkArray2 (ncols x) (map2 (fun r s => axpby a r b s) (rows x) (rows y)).

Definition nd_axpby (a : R) (x : ndarray) (b : R) (y : ndarray) : ndarray :=
  mkNdarray (shape x) (axpby a (data x) b (data y)).

(** [a * rx + b * ry] for the outcomes of two calls: the first exception
    raised, if any, propagates. *)
Definition lift_axpby2 (a : R) (rx : result (array2 R)) (b : R) (ry : result (array2 R))
  : result (array2 R) :=
  X <- rx ;; Y <- ry ;; Ok (axpby2 a X b Y).

End NumPy.

Import NumPy.

(** ** Projector parameters *)

(** The tuple returned by [get_geometry_parameters], in its order. *)
Record geometry_params : Type := mkGeometry {
  delta_det_channel : R;
  delta_det_row : R;
  det_channel_offset : R;
  det_row_offset : R;
  det_rotation : R;
  source_detector_dist : R;
  magnification : R;
  delta_pixel_recon : R;
  recon_slice_offset : R
}.

(** [projector_params = (sinogram_shape, recon_shape, geometry_params)]. *)
Record projector_params : Type := mkProjector {
  sinogram_shape : nat * nat * nat;
  recon_shape : nat * nat * nat;
  geometry : geometry_params
}.

Definition nat2R (n : nat) : R := IZR (Z.of_nat n).

(** ** The sparse kernel builder *)

Module ConeBeamModel.

Definition invalid_geometry : exn :=
  ValueError "Invalid geometry: Denominator in pixel magnification calculation becomes zero.".

(** Voxel index (i, j, k) to coordinates about the iso-centre. *)
Definition recon_ijk_to_xyz (i j k : Z) (delta_pixel_recon : R)
           (num_recon_rows num_recon_cols num_recon_slices : nat)
           (recon_slice_offset angle : R) : R * R * R :=
  let x_tilde := delta_pixel_recon * (IZR i - (nat2R num_recon_rows - 1) / 2) in
  let y_tilde := delta_pixel_recon * (IZR j - (nat2R num_recon_cols - 1) / 2) in
  let x := cos angle * x_tilde - sin angle * y_tilde in
  let y := sin angle * x_tilde + cos angle * y_tilde in
  let z := delta_pixel_recon * (IZR k - (nat2R num_recon_slices - 1) / 2) + recon_slice_offset in
  (x, y, z).

(** Coordinates about the iso-centre to the position on the detector, with
    the magnification of the voxel. The helper is written for one point and
    raises when its denominator is zero. *)
Definition geometry_xyz_to_uv_mag (x y z source_detector_dist magnification : R)
  : result (R * R * R) :=
  let source_to_iso_dist := source_detector_dist / magnification in
  if Req_dec_T (source_to_iso_dist - y) 0 then Raise invalid_geometry
  else
    let pixel_mag := source_detector_dist / (source_to_iso_dist - y) in
    let u := pixel_mag * x in
    let v := pixel_mag * z in
    Ok (u, v, pixel_mag).

(** Position on the detector to fractional detector indices (m, n): m along
    the rows, n along the channels. *)
Definition detector_uv_to_mn (u v det_rotation delta_det_channel delta_det_row
                              det_channel_offset det_row_offset : R)
           (num_det_rows num_det_channels : nat) : R * R :=
  let u_tilde := cos det_rotation * u + sin det_rotation * v in
  let v_tilde := - sin det_rotation * u + cos det_rotation * v in
  let det_center_channels := (nat2R num_det_channels - 1) / 2 in
  let det_center_rows := (nat2R num_det_rows - 1) / 2 in
  let n := u_tilde / delta_det_channel + det_center_channels + det_channel_offset in
  let m := v_tilde / delta_det_row + det_center_rows + det_row_offset in
  (m, n).

(** The (voxel, slice) pairs of a call: lines 256-264. Each of i, j, k is a
    rank-1 array with one entry per pair. *)
Definition expand_ijk (pixel_indices : list Z) (num_recon_rows num_recon_cols num_recon_slices : nat)
  : list Z * list Z * list Z :=
  let recon_shape_2d := (num_recon_rows, num_recon_cols) in
  let num_of_indices := length pixel_indices in
  let '(row_index, col_index) := unravel_index pixel_indices recon_shape_2d in
  let i := flatten (transpose (tile row_index num_recon_slices)) in
  let j := flatten (transpose (tile col_index num_recon_slices)) in
  let k := flatten (tile (arange num_recon_slices) num_of_indices) in
  (i, j, k).

(** The rank-1 arrays computed on lines 282-303, one entry per pair. The
    source binds the result of [detector_uv_to_mn] to the names mp, np:
    mp holds m (rows) and np holds n (channels). *)
Record footprints : Type := mkFootprints {
  mp : list R;
  np : list R;
  cos_alpha_col : list R;
  cos_alpha_row : list R;
  W_col : list R;
  W_row : list R
}.

Definition voxel_footprints (pixel_indices : list Z) (angle : R) (pp : projector_params)
  : result footprints :=
  let g := geometry pp in
  let '(num_views, num_det_rows, num_det_channels) := sinogram_shape pp in
  let '(num_recon_rows, num_recon_cols, num_recon_slices) := recon_shape pp in
  let '(i, j, k) := expand_ijk pixel_indices num_recon_rows num_recon_cols num_recon_slices in
  let xyz := map3 (fun i j k =>
                     recon_ijk_to_xyz i j k (delta_pixel_recon g) num_recon_rows num_recon_cols
                                      num_recon_slices (recon_slice_offset g) angle) i j k in
  uvm <- mapM (fun '(x, y, z) =>
                 geometry_xyz_to_uv_mag x y z (source_detector_dist g) (magnification g)) xyz ;;
  let u := map (fun '(u, v, pixel_mag) => u) uvm in
  let v := map (fun '(u, v, pixel_mag) => v) uvm in
  let pixel_mag := map (fun '(u, v, pixel_mag) => pixel_mag) uvm in
  let mn := map2 (fun u v =>
                    detector_uv_to_mn u v (det_rotation g) (delta_det_channel g) (delta_det_row g)
                                      (det_channel_offset g) (det_row_offset g)
                                      num_det_rows num_det_channels) u v in
  let cone_angle_channel := map (fun u => arctan2 u (source_detector_dist g)) u in
  let cone_angle_row := map (fun v => arctan2 v (source_detector_dist g)) v in
  let cos_alpha_col := map (fun c => Rmax (Rabs (cos (angle - c))) (Rabs (sin (angle - c))))
                           cone_angle_channel in
  let cos_alpha_row := map (fun c => Rmax (Rabs (cos c)) (Rabs (sin c))) cone_angle_row in
  let W_col := map3 (fun pm ca c =>
                       pm * (delta_pixel_recon g / delta_det_channel g) * (ca / cos c))
                    pixel_mag cos_alpha_col cone_angle_channel in
  let W_row := map3 (fun pm ca c =>
                       pm * (delta_pixel_recon g / delta_det_row g) * (ca / cos c))
                    pixel_mag cos_alpha_row cone_angle_row in
  Ok (mkFootprints (map fst mn) (map snd mn) cos_alpha_col cos_alpha_row W_col W_row).

(** [concatenate([centre + j for j in range(-p, p + 1)], axis=-1)] for a
    centre array of shape (Nv, 1). *)
Definition candidate_indices (centre : list Z) (p : nat) : array2 Z :=
  mkArray2 (2 * p + 1)
           (map (fun c => map (fun j => (c + j)%Z) (zrange (- Z.of_nat p) (2 * p + 1))) centre).

(** One direction of lines 305-349: the candidate indices around
    [round(frac)], the overlap length L and the masked weights. [frac], [W]
    and [cos_alpha] are rank-1 (one entry per pair) and are combined with
    the rank-2 arrays by broadcasting, as the source writes it. *)
Definition sparse_entries (frac W cos_alpha : list R) (delta_pixel_recon delta_det : R)
           (num_det : nat) (p : nat) : result (array2 R * array2 Z) :=
  let index := candidate_indices (map round frac) p in
  delta <- broadcast2 (fun c m => Rabs (IZR c - m)) index (col_vec frac) ;;
  let tmp1 := map (fun w => (w + 1) / 2) W in
  let tmp2 := map (fun w => (w - 1) / 2) W in
  inner <- broadcast2 Rmax (row_vec (map Rabs tmp2)) delta ;;
  diff <- broadcast2 Rminus (row_vec tmp1) inner ;;
  let L := map2d (fun x => Rmax x 0) diff in
  value <- broadcast2 Rmult (row_vec (map (fun c => delta_pixel_recon / c) cos_alpha))
                      (map2d (fun l => l / delta_det) L) ;;
  value <- broadcast2 (fun x b => x * b2r b) value (map2d (fun c => (0 <=? c)%Z) index) ;;
  value <- broadcast2 (fun x b => x * b2r b) value
                      (map2d (fun c => (c <? Z.of_nat num_det)%Z) index) ;;
  Ok (value, index).

(** [compute_sparse_Bij_Cij_single_view]. Both directions take mp as the
    fractional index and cos_alpha_col as the cosine, as on lines 308, 316,
    325 and 331, 339, 348; np and cos_alpha_row are not read here. *)
Definition compute_sparse_Bij_Cij_single_view
           (pixel_indices : list Z) (angle : R) (pp : projector_params) (p : nat)
  : result (array2 R * array2 Z * array2 R * array2 Z) :=
  let g := geometry pp in
  let '(num_views, num_det_rows, num_det_channels) := sinogram_shape pp in
  fp <- voxel_footprints pixel_indices angle pp ;;
  '(Bij_value, Bij_channel) <-
    sparse_entries (mp fp) (W_col fp) (cos_alpha_col fp)
                   (delta_pixel_recon g) (delta_det_channel g) num_det_channels p ;;
  '(Cij_value, Cij_row) <-
    sparse_entries (mp fp) (W_row fp) (cos_alpha_col fp)
                   (delta_pixel_recon g) (delta_det_row g) num_det_rows p ;;
  Ok (Bij_value, Bij_channel, Cij_value, Cij_row).

(** [jnp.broadcast_to] on one axis: an axis keeps its length or is
    stretched from length 1. *)
Definition can_broadcast_to (from to : nat) : bool := (from =? to)%nat || (from =? 1)%nat.

Definition rank_error : exn :=
  ValueError "voxel_values must have shape (num_indices, num_slices)".

(** [forward_project_voxels_one_view].  With Nv rows and P columns in
    Bij_value, the product on line 167 has the shapes (Nv, P, P) and
    (N, 1, 1, S): [voxel_values[:, None, None]] keeps the slice axis last.
    The result, when the shapes are compatible, has shape (N, Nv, P, w),
    and is flattened in that order on line 174. The weights are products of
    two entries of Bij_value, and both index arrays are taken from Cij_row
    (lines 167, 170, 171). [x.broadcast_to] is read as [jnp.broadcast_to]
    and [lax.index_add] as the scatter-add of its name. *)
Definition forward_project_voxels_one_view
           (voxel_values : ndarray) (pixel_indices : list Z) (angle : R) (pp : projector_params)
  : result (array2 R) :=
  match shape voxel_values with
  | [num_indices; num_slices] =>
      let '(num_views, num_det_rows, num_det_channels) := sinogram_shape pp in
      '(Bij_value, Bij_channel, Cij_value, Cij_row) <-
        compute_sparse_Bij_Cij_single_view pixel_indices angle pp 1 ;;
      let Nr := num_det_rows in
      let Nc := num_det_channels in
      let sinogram_view := zeros Nr Nc in
      let Nv := nrows Bij_value in
      let P := ncols Bij_value in
      match bdim P num_slices with
      | None => Raise incompatible_shapes
      | Some w =>
          if can_broadcast_to (ncols Cij_row) P && can_broadcast_to (ncols Cij_row) w then
            let cells :=
              flat_map (fun n =>
                flat_map (fun k =>
                  flat_map (fun a =>
                    map (fun b => (n, k, a, b)) (seq 0 w)) (seq 0 P)) (seq 0 Nv))
                (seq 0 num_indices) in
            let flat_outer_products :=
              map (fun '(n, k, a, b) =>
                     get Bij_value k a * get Bij_value k (bidx P b)
                     * nd_get2 voxel_values num_slices n (bidx num_slices b)) cells in
            let flat_rows :=
              map (fun '(n, k, a, b) => get Cij_row k (bidx (ncols Cij_row) a)) cells in
            let flat_cols :=
              map (fun '(n, k, a, b) => get Cij_row k (bidx (ncols Cij_row) b)) cells in
            Ok (index_add sinogram_view (flat_rows, flat_cols) flat_outer_products)
          else Raise incompatible_shapes
      end
  | _ => Raise rank_error
  end.

(** [back_project_one_view_to_voxel]. The detector value gathered at
    (Cij_row[k, a], Bij_channel[k, b]) is multiplied by
    (Bij_value[k, a] * Cij_row[k, b]) ** coeff_power: the second factor is
    the integer row index of line 127, not Cij_value. *)
Definition back_project_one_view_to_voxel
           (sinogram_view : array2 R) (pixel_index : list Z) (angle : R)
           (pp : projector_params) (coeff_power : nat) : result (list R) :=
  let sinogram_view_shape := (1%nat, nrows sinogram_view, ncols sinogram_view) in
  let view_projector_params := mkProjector sinogram_view_shape (recon_shape pp) (geometry pp) in
  '(Bij_value, Bij_channel, Cij_value, Cij_row) <-
    compute_sparse_Bij_Cij_single_view pixel_index angle view_projector_params 1 ;;
  let Nv := nrows Bij_value in
  let psf_width := ncols Bij_value in
  if can_broadcast_to (ncols Cij_row) psf_width && can_broadcast_to (ncols Bij_channel) psf_width then
    Ok (map (fun k =>
               sum_list (map (fun a =>
                 sum_list (map (fun b =>
                   gather sinogram_view (get Cij_row k (bidx (ncols Cij_row) a))
                                        (get Bij_channel k (bidx (ncols Bij_channel) b))
                   * (get Bij_value k a * IZR (get Cij_row k (bidx (ncols Cij_row) b))) ^ coeff_power)
                 (seq 0 psf_width))) (seq 0 psf_width)))
            (seq 0 Nv))
  else Raise incompatible_shapes.

(** ** Parameter validation *)

(** The parameters read by [verify_valid_params]. *)
Record model : Type := mkModel {
  model_sinogram_shape : nat * nat * nat;
  view_params_array : array2 R;
  model_recon_shape : nat * nat * nat
}.

(** Lines 42-44 of [__init__]: the single view-dependent vector, angles, is
    stacked along axis 1 into an array of shape (len(angles), 1). *)
Definition stack_view_dependent_vecs (angles : list R) : array2 R := col_vec angles.

Definition str_nat (n : nat) : string := NilEmpty.string_of_uint (Nat.to_uint n).

Definition str_shape (s : nat * nat * nat) : string :=
  let '(a, b, c) := s in
  ("(" ++ str_nat a ++ ", " ++ str_nat b ++ ", " ++ str_nat c ++ ")")%string.

Definition newline : string := String (ascii_of_nat 10) EmptyString.

(** The message of line 60-62: [format] is applied to the last fragment
    only, whose single field takes the first argument. *)
Definition views_message (num_vecs num_views : nat) : string :=
  ("Number view dependent parameter vectors must equal the number of views. " ++ newline
   ++ "Got {} for length of view-dependent parameters and "
   ++ str_nat num_vecs ++ " for number of views.")%string.

Definition slices_message (recon_shape sinogram_shape : nat * nat * nat) : string :=
  ("Number of recon slices must match number of sinogram rows. " ++ newline
   ++ "Got " ++ str_shape recon_shape ++ " for recon_shape and "
   ++ str_shape sinogram_shape ++ " for sinogram_shape")%string.

Section Validation.

(** [TomographyModel.verify_valid_params], the validation of the base
    class, which is not part of this file. *)
Variable super_verify_valid_params : model -> result unit.

Definition verify_valid_params (self : model) : result unit :=
  _ <- super_verify_valid_params self ;;
  let '(num_views, num_det_rows, num_det_channels) := model_sinogram_shape self in
  if negb (nrows (view_params_array self) =? num_views)%nat then
    Raise (ValueError (views_message (nrows (view_params_array self)) num_views))
  else
    let '(num_recon_rows, num_recon_cols, num_recon_slices) := model_recon_shape self in
    if negb (num_recon_slices =? num_det_rows)%nat then
      Raise (ValueError (slices_message (model_recon_shape self) (model_sinogram_shape self)))
    else Ok tt.

End Validation.

End ConeBeamModel.

Import ConeBeamModel.

(** ** The operations as the specification words them *)

Module Spec.

(** The 2p + 1 consecutive integers centred at [c]. *)
Definition centred_window (c : Z) (p : nat) : list Z :=
  map (fun t => (c - Z.of_nat p + Z.of_nat t)%Z) (seq 0 (2 * p + 1)).

(** Overlap length of a unit detector cell and a footprint of width [W]. *)
Definition overlap (W frac : R) (candidate : Z) : R :=
  Rmax ((W + 1) / 2 - Rmax (Rabs (W - 1) / 2) (Rabs (IZR candidate - frac))) 0.

(** Weight = (voxel_pitch / cos_alpha) * (L / detector_pitch). *)
Definition weight (voxel_pitch cos_alpha L detector_pitch : R) : R :=
  (voxel_pitch / cos_alpha) * (L / detector_pitch).

(** Forward projection from a kernel: pair k = n * S + s of voxel n and
    slice s adds chan_weight[k, b] * row_weight[k, a] * voxel_values[n, s]
    at (row_index[k, a], chan_index[k, b]). *)
Definition forward_project_view (voxel_values : ndarray) (num_slices : nat)
           (kernel : array2 R * array2 Z * array2 R * array2 Z) (Nr Nc : nat) : array2 R :=
  let '(chan_weight, chan_index, row_weight, row_index) := kernel in
  let P := ncols chan_index in
  let cells :=
    flat_map (fun k => flat_map (fun a => map (fun b => (k, a, b)) (seq 0 P)) (seq 0 P))
             (seq 0 (nrows chan_index)) in
  index_add (zeros Nr Nc)
            (map (fun '(k, a, b) => get row_index k a) cells,
             map (fun '(k, a, b) => get chan_index k b) cells)
            (map (fun '(k, a, b) =>
                    get row_weight k a * get chan_weight k b
                    * nd_get2 voxel_values num_slices (k / num_slices) (k mod num_slices)) cells).

(** Back projection from a kernel: the detector value at
    (row_index[k, a], chan_index[k, b]) weighted by
    (chan_weight[k, b] * row_weight[k, a]) ^ coeff_power, summed over a, b. *)
Definition back_project_view (detector_view : array2 R)
           (kernel : array2 R * array2 Z * array2 R * array2 Z) (coeff_power : nat) : list R :=
  let '(chan_weight, chan_index, row_weight, row_index) := kernel in
  let P := ncols chan_index in
  map (fun k =>
         sum_list (map (fun a =>
           sum_list (map (fun b =>
             gather detector_view (get row_index k a) (get chan_index k b)
             * (get chan_weight k b * get row_weight k a) ^ coeff_power)
           (seq 0 P))) (seq 0 P)))
      (seq 0 (nrows chan_index)).

End Spec.

(** ** Inputs used to run the code *)

Module Scenario.

(** Unit pitches, no offsets, no detector rotation; the source is at
    distance 1 from the iso-centre and 2 from the detector. *)
Definition unit_geometry : geometry_params := mkGeometry 1 1 0 0 0 2 2 1 0.

(** As [unit_geometry], with detector rows twice as tall. *)
Definition tall_geometry : geometry_params := mkGeometry 1 2 0 0 0 2 2 1 0.

(** One voxel, one slice, a 1 x 1 detector. *)
Definition one_voxel : projector_params :=
  mkProjector (1, 1, 1)%nat (1, 1, 1)%nat unit_geometry.

Definition one_voxel_tall : projector_params :=
  mkProjector (1, 1, 1)%nat (1, 1, 1)%nat tall_geometry.

(** One voxel, one slice, a detector of 1 row and 3 channels. *)
Definition one_voxel_three_channels : projector_params :=
  mkProjector (1, 1, 3)%nat (1, 1, 1)%nat unit_geometry.

(** A 1 x 2 plane of voxels with one slice. *)
Definition two_voxels : projector_params :=
  mkProjector (1, 1, 1)%nat (1, 2, 1)%nat unit_geometry.

(** One voxel with two slices, and two detector rows. *)
Definition two_slices : projector_params :=
  mkProjector (1, 2, 1)%nat (1, 1, 2)%nat unit_geometry.

Definition unit_voxel_values : ndarray := mkNdarray [1; 1]%nat [1].

Definition unit_detector_view : array2 R := mkArray2 1 [[1]].

Definition zero_voxel_values_two_slices : ndarray := mkNdarray [1; 2]%nat [0; 0].

Definition unit_kernel : array2 R * array2 Z * array2 R * array2 Z :=
  (mkArray2 3 [[0; 1; 0]], mkArray2 3 [[-1; 0; 1]]%Z,
   mkArray2 3 [[0; 1; 0]], mkArray2 3 [[-1; 0; 1]]%Z).

Definition tall_kernel : array2 R * array2 Z * array2 R * array2 Z :=
  (mkArray2 3 [[0; 1; 0]], mkArray2 3 [[-1; 0; 1]]%Z,
   mkArray2 3 [[0; 1 / 2; 0]], mkArray2 3 [[-1; 0; 1]]%Z).

(** A model built from 16 angles for a sinogram of 32 views. *)
Definition model_16_angles : model :=
  mkModel (32, 32, 64)%nat (stack_view_dependent_vecs (repeat 0 16)) (64, 64, 32)%nat.

(** The weight entry of one pair at offset [j] from the window centre, as
    [sparse_entries] computes it when the call has a single pair. *)
Definition entry (m w c dp dd : R) (nd : nat) (j : Z) : R :=
  (dp / c)
  * (Rmax ((w + 1) / 2 - Rmax (Rabs ((w - 1) / 2)) (Rabs (IZR (round m + j) - m))) 0 / dd)
  * b2r (0 <=? round m + j)%Z * b2r (round m + j <? Z.of_nat nd)%Z.

End Scenario.

Import Scenario.

(** * Proofs *)

(** ** Tactics for closed real arithmetic *)

Ltac rcalc :=
  repeat match goal with
         | |- context [Rabs ?x] =>
             first [ rewrite (Rabs_pos_eq x) by lra | rewrite (Rabs_left1 x) by lra ]
         | |- context [Rmax ?x ?y] =>
             first [ rewrite (Rmax_left x y) by lra | rewrite (Rmax_right x y) by lra ]
         end.

Ltac arrays_lra :=
  repeat match goal with
         | |- Ok _ = Ok _ => apply f_equal
         | |- (_, _) = (_, _) => apply (f_equal2 pair)
         | |- mkArray2 _ _ = mkArray2 _ _ => apply (f_equal2 mkArray2); [reflexivity|]
         | |- @eq (list (list R)) (_ :: _) (_ :: _) => apply (f_equal2 cons)
         | |- @eq (list R) (_ :: _) (_ :: _) => apply (f_equal2 cons); [lra|]
         | |- @eq (list _) [] [] => reflexivity
         | |- @eq (list (list Z)) _ _ => reflexivity
         end.

(** ** Lists *)

Lemma length_map2 {A B C} (f : A -> B -> C) u v :
  length (map2 f u v) = Nat.min (length u) (length v).
Proof.
  revert v; induction u as [|a u IH]; intros [|b v]; simpl; auto.
Qed.

Lemma length_map3 {A B C D} (f : A -> B -> C -> D) u v w :
  length (map3 f u v w) = Nat.min (length u) (Nat.min (length v) (length w)).
Proof.
  revert v w; induction u as [|a u IH]; intros [|b v] [|c w]; simpl; auto.
Qed.

Lemma length_mapM {A B} (f : A -> result B) l bs :
  mapM f l = Ok bs -> length bs = length l.
Proof.
  revert bs; induction l as [|a l IH]; simpl; intros bs H.
  - inversion H; reflexivity.
  - destruct (f a) as [b|e]; simpl in H; [|discriminate].
    destruct (mapM f l) as [bs'|e]; simpl in H; [|discriminate].
    inversion H; subst; simpl. f_equal. apply IH; reflexivity.
Qed.

Lemma length_concat_uniform {A} (l : list (list A)) n :
  Forall (fun r => length r = n) l -> length (concat l) = (length l * n)%nat.
Proof.
  induction 1 as [|r l Hr _ IH]; simpl; [reflexivity|].
  rewrite length_app, Hr, IH. reflexivity.
Qed.

Lemma nth_concat_uniform {A} (l : list (list A)) n k s d :
  Forall (fun r => length r = n) l -> (s < n)%nat ->
  nth (k * n + s) (concat l) d = nth s (nth k l []) d.
Proof.
  intros Hl Hs. revert k. induction Hl as [|r l Hr _ IH]; intros k.
  - cbn [concat]. destruct (k * n + s)%nat, k, s; reflexivity.
  - destruct k as [|k]; cbn [concat nth].
    + cbn [Nat.mul Nat.add]. rewrite app_nth1 by lia. reflexivity.
    + rewrite app_nth2 by (cbn; lia).
      replace (S k * n + s - length r)%nat with (k * n + s)%nat by (cbn; lia).
      apply IH.
Qed.

(** ** Shapes *)

Lemma nrows_map2d {A B} (g : A -> B) (a : array2 A) : nrows (map2d g a) = nrows a.
Proof. unfold nrows, map2d; cbn [rows]. apply length_map. Qed.

Lemma ncols_map2d {A B} (g : A -> B) (a : array2 A) : ncols (map2d g a) = ncols a.
Proof. reflexivity. Qed.

Lemma nrows_row_vec {A} (v : list A) : nrows (row_vec v) = 1%nat.
Proof. reflexivity. Qed.

Lemma ncols_row_vec {A} (v : list A) : ncols (row_vec v) = length v.
Proof. reflexivity. Qed.

Lemma nrows_col_vec {A} (v : list A) : nrows (col_vec v) = length v.
Proof. unfold nrows, col_vec; cbn [rows]. apply length_map. Qed.

Lemma ncols_col_vec {A} (v : list A) : ncols (col_vec v) = 1%nat.
Proof. reflexivity. Qed.

Lemma nrows_candidate centre p : nrows (candidate_indices centre p) = length centre.
Proof. unfold nrows, candidate_indices; cbn [rows]. apply length_map. Qed.

Lemma ncols_candidate centre p : ncols (candidate_indices centre p) = (2 * p + 1)%nat.
Proof. reflexivity. Qed.

Create Rewrite HintDb shapes.
#[local] Hint Rewrite @nrows_row_vec @ncols_row_vec @nrows_col_vec @ncols_col_vec
  @nrows_map2d @ncols_map2d nrows_candidate ncols_candidate @length_map : shapes.

(** ** The broadcasting rule *)

Lemma bidx_lt n i : (i < n)%nat -> bidx n i = i.
Proof.
  unfold bidx. destruct (Nat.eqb_spec n 1); [lia | reflexivity].
Qed.

Lemma bdim_same n : bdim n n = Some n.
Proof. unfold bdim. rewrite Nat.eqb_refl. reflexivity. Qed.

Lemma bdim_1_l b c : bdim 1 b = Some c -> c = b.
Proof.
  unfold bdim. destruct (Nat.eqb_spec 1 b); cbn; intros H; inversion H; congruence.
Qed.

Lemma bdim_1_r a : bdim a 1 = Some a.
Proof.
  unfold bdim. destruct (Nat.eqb_spec a 1) as [->|Ha]; [reflexivity|].
  destruct (Nat.eqb_spec a 1); [contradiction | reflexivity].
Qed.

Lemma bdim_le_r a b c : bdim a b = Some c -> (0 < a)%nat -> (b <= c)%nat.
Proof.
  unfold bdim.
  destruct (Nat.eqb_spec a b); [intros H; inversion H; lia|].
  destruct (Nat.eqb_spec a 1); [intros H; inversion H; lia|].
  destruct (Nat.eqb_spec b 1); [intros H; inversion H; lia|discriminate].
Qed.

Lemma bdim_pos a b c : bdim a b = Some c -> (0 < a)%nat -> (0 < b)%nat -> (0 < c)%nat.
Proof.
  unfold bdim.
  destruct (Nat.eqb_spec a b); [intros H; inversion H; lia|].
  destruct (Nat.eqb_spec a 1); [intros H; inversion H; lia|].
  destruct (Nat.eqb_spec b 1); [intros H; inversion H; lia|discriminate].
Qed.

Lemma bdim_wide_r a b c : bdim a b = Some c -> (1 < b)%nat -> c = b.
Proof.
  unfold bdim.
  destruct (Nat.eqb_spec a b); [intros H; inversion H; lia|].
  destruct (Nat.eqb_spec a 1); [intros H; inversion H; lia|].
  destruct (Nat.eqb_spec b 1); [intros H; inversion H; lia|discriminate].
Qed.

Lemma bdim_none a b : a <> b -> a <> 1%nat -> b <> 1%nat -> bdim a b = None.
Proof.
  intros Hab Ha Hb. unfold bdim.
  destruct (Nat.eqb_spec a b); [contradiction|].
  destruct (Nat.eqb_spec a 1); [contradiction|].
  destruct (Nat.eqb_spec b 1); [contradiction|reflexivity].
Qed.

Section Broadcast2.

Context {A B C : Type} `{Default A} `{Default B}.
Variable f : A -> B -> C.

Lemma broadcast2_shape a b c :
  broadcast2 f a b = Ok c ->
  bdim (nrows a) (nrows b) = Some (nrows c) /\ bdim (ncols a) (ncols b) = Some (ncols c).
Proof.
  unfold broadcast2.
  destruct (bdim (nrows a) (nrows b)) as [r|]; [|discriminate].
  destruct (bdim (ncols a) (ncols b)) as [w|]; [|discriminate].
  intros E; inversion E; subst; clear E. unfold nrows; cbn [rows ncols].
  rewrite length_map, length_seq. auto.
Qed.

Lemma broadcast2_error a b e : broadcast2 f a b = Raise e -> e = incompatible_shapes.
Proof.
  unfold broadcast2.
  destruct (bdim (nrows a) (nrows b)); [destruct (bdim (ncols a) (ncols b))|];
    intros E; inversion E; reflexivity.
Qed.

Lemma broadcast2_rejects a b :
  bdim (ncols a) (ncols b) = None -> broadcast2 f a b = Raise incompatible_shapes.
Proof.
  unfold broadcast2. intros ->. destruct (bdim (nrows a) (nrows b)); reflexivity.
Qed.

Lemma lookup_broadcast2 a b c k t :
  broadcast2 f a b = Ok c -> (k < nrows c)%nat -> (t < ncols c)%nat ->
  lookup c k t = Some (f (get a (bidx (nrows a) k) (bidx (ncols a) t))
                         (get b (bidx (nrows b) k) (bidx (ncols b) t))).
Proof.
  unfold broadcast2.
  destruct (bdim (nrows a) (nrows b)) as [r|]; [|discriminate].
  destruct (bdim (ncols a) (ncols b)) as [w|]; [|discriminate].
  intros E; inversion E; subst; clear E. unfold nrows, lookup; cbn [rows ncols].
  rewrite length_map, length_seq. intros Hk Ht.
  rewrite nth_error_map, nth_error_seq.
  destruct (Nat.ltb_spec k r); [|lia]. cbn [option_map].
  rewrite nth_error_map, nth_error_seq.
  destruct (Nat.ltb_spec t w); [|lia]. reflexivity.
Qed.

End Broadcast2.

Lemma lookup_get {A} `{Default A} (a : array2 A) k t x :
  lookup a k t = Some x -> get a k t = x.
Proof.
  unfold lookup, get. destruct (nth_error (rows a) k) as [r|] eqn:E; [|discriminate].
  intros Ht. rewrite (nth_error_nth _ _ _ E). apply nth_error_nth, Ht.
Qed.

Lemma lookup_map2d {A B} (g : A -> B) (a : array2 A) k t :
  lookup (map2d g a) k t = option_map g (lookup a k t).
Proof.
  unfold lookup, map2d; cbn [rows]. rewrite nth_error_map.
  destruct (nth_error (rows a) k); cbn; [apply nth_error_map | reflexivity].
Qed.

(** ** The candidate indices *)

Lemma lookup_candidate centre p k t c :
  lookup (candidate_indices centre p) k t = Some c ->
  (k < length centre)%nat /\ (t < 2 * p + 1)%nat.
Proof.
  unfold lookup, candidate_indices; cbn [rows]. rewrite nth_error_map.
  destruct (nth_error centre k) as [z|] eqn:E; cbn [option_map]; [|discriminate].
  intros Ht. split.
  - apply nth_error_Some. congruence.
  - assert (Hn : nth_error (map (fun j : Z => (z + j)%Z)
                                (zrange (- Z.of_nat p) (2 * p + 1))) t <> None)
      by congruence.
    apply nth_error_Some in Hn. unfold zrange in Hn.
    rewrite !length_map, length_seq in Hn. exact Hn.
Qed.

Lemma candidate_total centre p k t :
  (k < length centre)%nat -> (t < 2 * p + 1)%nat ->
  lookup (candidate_indices centre p) k t
  = Some (nth k centre 0%Z - Z.of_nat p + Z.of_nat t)%Z.
Proof.
  intros Hk Ht. unfold lookup, candidate_indices; cbn [rows].
  rewrite nth_error_map, (nth_error_nth' centre 0%Z Hk). cbn [option_map].
  unfold zrange. rewrite !nth_error_map, nth_error_seq.
  destruct (Nat.ltb_spec t (2 * p + 1)); [|lia]. cbn [option_map]. f_equal. lia.
Qed.

(** Every row of the candidate array is the window of 2p + 1 consecutive
    integers around its centre. *)
Lemma candidate_rows_are_windows centre p :
  rows (candidate_indices centre p) = map (fun c => Spec.centred_window c p) centre.
Proof.
  unfold candidate_indices, Spec.centred_window, zrange; cbn [rows].
  apply map_ext. intros c. rewrite map_map. apply map_ext. intros t. lia.
Qed.

(** ** One direction of the kernel *)

Lemma sparse_entries_inv frac W ca dp dd nd p value index :
  sparse_entries frac W ca dp dd nd p = Ok (value, index) ->
  index = candidate_indices (map round frac) p.
Proof.
  unfold sparse_entries.
  repeat (match goal with
          | |- context [bind (broadcast2 ?g ?a ?b) _] =>
              destruct (broadcast2 g a b); cbn [bind]; [|discriminate]
          end).
  intros E; inversion E; reflexivity.
Qed.

Lemma sparse_entries_error frac W ca dp dd nd p e :
  sparse_entries frac W ca dp dd nd p = Raise e -> e = incompatible_shapes.
Proof.
  unfold sparse_entries.
  repeat (match goal with
          | |- context [bind (broadcast2 ?g ?a ?b) _] =>
              let E := fresh "E" in
              destruct (broadcast2 g a b) eqn:E; cbn [bind];
              [| apply broadcast2_error in E; intros X; inversion X; congruence]
          end).
  discriminate.
Qed.

(** A rank-1 array with one entry per pair is aligned with the last axis of
    the (Nv, 2p + 1) arrays: for a radius of at least 1 the shapes are
    rejected unless Nv is 1 or 2p + 1. *)
Lemma sparse_entries_rejects frac W ca dp dd nd p :
  length W = length frac -> (1 <= p)%nat ->
  length frac <> 1%nat -> length frac <> (2 * p + 1)%nat ->
  sparse_entries frac W ca dp dd nd p = Raise incompatible_shapes.
Proof.
  intros HW Hp H1 HP. unfold sparse_entries.
  destruct (broadcast2 _ _ (col_vec frac)) as [delta|e] eqn:E1; cbn [bind].
  - apply broadcast2_shape in E1 as [_ C1].
    autorewrite with shapes in C1. rewrite bdim_1_r in C1. inversion C1 as [C1'].
    rewrite broadcast2_rejects; [reflexivity|].
    rewrite <- C1'. autorewrite with shapes. rewrite HW.
    apply bdim_none; lia.
  - apply broadcast2_error in E1. subst. reflexivity.
Qed.

(** Whatever the alignment, an entry whose candidate index is out of the
    detector is multiplied by a zero mask. *)
Lemma sparse_entries_zero frac W ca dp dd nd p value index :
  length W = length frac -> length ca = length frac ->
  sparse_entries frac W ca dp dd nd p = Ok (value, index) ->
  forall k t c,
    lookup index k t = Some c -> (c < 0 \/ Z.of_nat nd <= c)%Z ->
    lookup value k t = Some 0.
Proof.
  intros HW Hca Hs k t c Hc Hout.
  pose proof (sparse_entries_inv _ _ _ _ _ _ _ _ _ Hs) as Hidx.
  revert Hs. unfold sparse_entries. rewrite <- Hidx.
  destruct (broadcast2 _ index _) as [delta|] eqn:E1; cbn [bind]; [|discriminate].
  destruct (broadcast2 Rmax _ delta) as [inner|] eqn:E2; cbn [bind]; [|discriminate].
  destruct (broadcast2 Rminus _ inner) as [diff|] eqn:E3; cbn [bind]; [|discriminate].
  destruct (broadcast2 Rmult _ _) as [v0|] eqn:E4; cbn [bind]; [|discriminate].
  destruct (broadcast2 _ v0 _) as [v1|] eqn:E5; cbn [bind]; [|discriminate].
  destruct (broadcast2 _ v1 _) as [v2|] eqn:E6; cbn [bind]; [|discriminate].
  intros E; inversion E; subst v2; clear E.
  assert (Hkt : (k < length frac)%nat /\ (t < 2 * p + 1)%nat).
  { rewrite Hidx in Hc. apply lookup_candidate in Hc. rewrite length_map in Hc. exact Hc. }
  destruct Hkt as [Hk Ht].
  assert (Hri : nrows index = length frac)
    by (rewrite Hidx; autorewrite with shapes; reflexivity).
  assert (Hci : ncols index = (2 * p + 1)%nat) by (rewrite Hidx; reflexivity).
  pose proof (broadcast2_shape _ _ _ _ E1) as [R1 C1].
  pose proof (broadcast2_shape _ _ _ _ E2) as [R2 C2].
  pose proof (broadcast2_shape _ _ _ _ E3) as [R3 C3].
  pose proof (broadcast2_shape _ _ _ _ E4) as [R4 C4].
  pose proof (broadcast2_shape _ _ _ _ E5) as [R5 C5].
  pose proof (broadcast2_shape _ _ _ _ E6) as [R6 C6].
  autorewrite with shapes in R1, C1, R2, C2, R3, C3, R4, C4, R5, C5, R6, C6.
  rewrite Hri, bdim_same in R1. inversion R1 as [R1'].
  apply bdim_1_l in R2, R3, R4.
  assert (N0 : nrows v0 = length frac) by congruence.
  rewrite Hci, bdim_1_r in C1. inversion C1 as [C1'].
  assert (P0 : (0 < ncols v0)%nat).
  { eapply bdim_pos; [exact C4 | lia |].
    eapply bdim_pos; [exact C3 | lia |].
    eapply bdim_pos; [exact C2 | lia | lia]. }
  rewrite N0, Hri, bdim_same in R5. inversion R5 as [R5'].
  rewrite <- R5', Hri, bdim_same in R6. inversion R6 as [R6'].
  pose proof (bdim_le_r _ _ _ C5 P0) as Q5.
  assert (P1 : (0 < ncols v1)%nat) by lia.
  pose proof (bdim_le_r _ _ _ C6 P1) as Q6.
  rewrite (lookup_broadcast2 _ _ _ _ _ _ E6) by lia.
  pose proof (lookup_broadcast2 _ _ _ _ k t E5 ltac:(lia) ltac:(lia)) as G5.
  autorewrite with shapes in G5 |- *.
  rewrite ?(bidx_lt _ k), (bidx_lt (ncols index) t) in G5 by lia.
  rewrite ?(bidx_lt _ k), (bidx_lt (ncols v1) t), (bidx_lt (ncols index) t) by lia.
  rewrite (lookup_get _ _ _ _ G5).
  assert (M1 : get (map2d (fun c0 : Z => (0 <=? c0)%Z) index) k t = (0 <=? c)%Z).
  { apply lookup_get. rewrite lookup_map2d, Hc. reflexivity. }
  assert (M2 : get (map2d (fun c0 : Z => (c0 <? Z.of_nat nd)%Z) index) k t
               = (c <? Z.of_nat nd)%Z).
  { apply lookup_get. rewrite lookup_map2d, Hc. reflexivity. }
  rewrite M1, M2. f_equal.
  destruct Hout as [Hneg | Hbig].
  - destruct (Z.leb_spec 0 c); [lia|]. cbn [b2r]. ring.
  - destruct (Z.ltb_spec c (Z.of_nat nd)); [lia|]. cbn [b2r]. ring.
Qed.

(** With a radius of at least 1, the arrays that come back have one row per
    pair and 2p + 1 columns. *)
Lemma sparse_entries_shape frac W ca dp dd nd p value index :
  (1 <= p)%nat ->
  sparse_entries frac W ca dp dd nd p = Ok (value, index) ->
  shape2 value = (length frac, (2 * p + 1)%nat)
  /\ shape2 index = (length frac, (2 * p + 1)%nat).
Proof.
  intros Hp Hs.
  pose proof (sparse_entries_inv _ _ _ _ _ _ _ _ _ Hs) as Hidx.
  revert Hs. unfold sparse_entries. rewrite <- Hidx.
  destruct (broadcast2 _ index _) as [delta|] eqn:E1; cbn [bind]; [|discriminate].
  destruct (broadcast2 Rmax _ delta) as [inner|] eqn:E2; cbn [bind]; [|discriminate].
  destruct (broadcast2 Rminus _ inner) as [diff|] eqn:E3; cbn [bind]; [|discriminate].
  destruct (broadcast2 Rmult _ _) as [v0|] eqn:E4; cbn [bind]; [|discriminate].
  destruct (broadcast2 _ v0 _) as [v1|] eqn:E5; cbn [bind]; [|discriminate].
  destruct (broadcast2 _ v1 _) as [v2|] eqn:E6; cbn [bind]; [|discriminate].
  intros E; inversion E; subst v2; clear E.
  assert (Hri : nrows index = length frac)
    by (rewrite Hidx; autorewrite with shapes; reflexivity).
  assert (Hci : ncols index = (2 * p + 1)%nat) by (rewrite Hidx; reflexivity).
  pose proof (broadcast2_shape _ _ _ _ E1) as [R1 C1].
  pose proof (broadcast2_shape _ _ _ _ E2) as [R2 C2].
  pose proof (broadcast2_shape _ _ _ _ E3) as [R3 C3].
  pose proof (broadcast2_shape _ _ _ _ E4) as [R4 C4].
  pose proof (broadcast2_shape _ _ _ _ E5) as [R5 C5].
  pose proof (broadcast2_shape _ _ _ _ E6) as [R6 C6].
  autorewrite with shapes in R1, C1, R2, C2, R3, C3, R4, C4, R5, C5, R6, C6.
  rewrite Hri, bdim_same in R1. inversion R1 as [R1'].
  apply bdim_1_l in R2, R3, R4.
  assert (N0 : nrows v0 = length frac) by congruence.
  rewrite Hci, bdim_1_r in C1. inversion C1 as [C1'].
  rewrite N0, Hri, bdim_same in R5. inversion R5 as [R5'].
  rewrite <- R5', Hri, bdim_same in R6. inversion R6 as [R6'].
  apply bdim_wide_r in C2; [|lia]. apply bdim_wide_r in C3; [|lia].
  apply bdim_wide_r in C4; [|lia]. apply bdim_wide_r in C5; [|lia].
  apply bdim_wide_r in C6; [|lia].
  unfold shape2. split; f_equal; congruence.
Qed.

(** ** The (voxel, slice) pairs *)

Lemma length_flatten_transpose_tile (v : list Z) reps :
  length (flatten (transpose (tile v reps))) = (length v * reps)%nat.
Proof.
  unfold flatten, transpose, tile; cbn [rows ncols].
  rewrite (length_concat_uniform _ reps).
  - rewrite length_map, length_seq. reflexivity.
  - apply Forall_forall. intros r Hr. apply in_map_iff in Hr as (t & <- & _).
    rewrite length_map, repeat_length. reflexivity.
Qed.

Lemma length_flatten_tile {A} (v : list A) reps :
  length (flatten (tile v reps)) = (reps * length v)%nat.
Proof.
  unfold flatten, tile; cbn [rows].
  rewrite (length_concat_uniform _ (length v)).
  - rewrite repeat_length. reflexivity.
  - apply Forall_forall. intros r Hr. apply repeat_spec in Hr. subst. reflexivity.
Qed.

Lemma nth_flatten_transpose_tile (v : list Z) reps n s :
  (n < length v)%nat -> (s < reps)%nat ->
  nth (n * reps + s) (flatten (transpose (tile v reps))) 0%Z = nth n v 0%Z.
Proof.
  intros Hn Hs. unfold flatten, transpose, tile; cbn [rows ncols].
  rewrite (nth_concat_uniform _ reps); [| |exact Hs].
  - rewrite (nth_indep _ [] (map (fun r => nth 0 r default) (repeat v reps)))
      by (rewrite length_map, length_seq; exact Hn).
    rewrite (map_nth (fun t => map (fun r => nth t r default) (repeat v reps))), seq_nth by exact Hn.
    cbn [Nat.add].
    rewrite (nth_indep _ 0%Z (nth n [] default)) by (rewrite length_map, repeat_length; exact Hs).
    rewrite (map_nth (fun r => nth n r default)).
    rewrite nth_repeat_lt by exact Hs. reflexivity.
  - apply Forall_forall. intros r Hr. apply in_map_iff in Hr as (t & <- & _).
    rewrite length_map, repeat_length. reflexivity.
Qed.

Lemma nth_flatten_tile_arange ns reps n s :
  (n < reps)%nat -> (s < ns)%nat ->
  nth (n * ns + s) (flatten (tile (arange ns) reps)) 0%Z = Z.of_nat s.
Proof.
  intros Hn Hs. unfold flatten, tile; cbn [rows].
  assert (Hl : length (arange ns) = ns) by (unfold arange; now rewrite length_map, length_seq).
  rewrite (nth_concat_uniform _ ns); [| |exact Hs].
  - rewrite nth_repeat_lt by exact Hn. unfold arange.
    rewrite (nth_indep _ 0%Z (Z.of_nat 0)) by (rewrite length_map, length_seq; exact Hs).
    rewrite map_nth, seq_nth by exact Hs. reflexivity.
  - apply Forall_forall. intros r Hr. apply repeat_spec in Hr. subst. exact Hl.
Qed.

Lemma length_expand_ijk idx nr nc ns i j k :
  expand_ijk idx nr nc ns = (i, j, k) ->
  length i = (length idx * ns)%nat /\ length j = (length idx * ns)%nat
  /\ length k = (length idx * ns)%nat.
Proof.
  unfold expand_ijk, unravel_index. intros H. inversion H; subst; clear H.
  rewrite !length_flatten_transpose_tile, length_flatten_tile.
  rewrite !length_map. unfold arange. rewrite length_map, length_seq.
  repeat split; reflexivity.
Qed.

(** The pairs are listed voxel by voxel, and within a voxel slice by slice:
    pair [n * num_slices + s] is voxel [n] of the call in slice [s]. *)
Lemma expand_ijk_order idx nr nc ns i j k n s :
  expand_ijk idx nr nc ns = (i, j, k) ->
  (n < length idx)%nat -> (s < ns)%nat ->
  nth (n * ns + s) i 0%Z = nth n (fst (unravel_index idx (nr, nc))) 0%Z
  /\ nth (n * ns + s) j 0%Z = nth n (snd (unravel_index idx (nr, nc))) 0%Z
  /\ nth (n * ns + s) k 0%Z = Z.of_nat s.
Proof.
  unfold expand_ijk. destruct (unravel_index idx (nr, nc)) as [row_index col_index] eqn:U.
  assert (Hl : length row_index = length idx /\ length col_index = length idx).
  { unfold unravel_index in U. inversion U; subst. now rewrite !length_map. }
  destruct Hl as [Hr Hc]. intros H Hn Hs. inversion H; subst; clear H. cbn [fst snd].
  rewrite !nth_flatten_transpose_tile, nth_flatten_tile_arange by (assumption || lia).
  repeat split; reflexivity.
Qed.

(** ** The footprints *)

Lemma footprints_length idx angle pp fp :
  voxel_footprints idx angle pp = Ok fp ->
  let Nv := (length idx * snd (recon_shape pp))%nat in
  length (mp fp) = Nv /\ length (np fp) = Nv
  /\ length (cos_alpha_col fp) = Nv /\ length (cos_alpha_row fp) = Nv
  /\ length (W_col fp) = Nv /\ length (W_row fp) = Nv.
Proof.
  unfold voxel_footprints.
  destruct (sinogram_shape pp) as [[nv nr] nc].
  destruct (recon_shape pp) as [[rr rc] rs].
  destruct (expand_ijk idx rr rc rs) as [[i j] k] eqn:E.
  apply length_expand_ijk in E as (Hi & Hj & Hk).
  destruct (mapM _ _) as [uvm|e] eqn:M; simpl; [|discriminate].
  apply length_mapM in M. rewrite length_map3, Hi, Hj, Hk, !Nat.min_id in M.
  intros H; inversion H; subst; clear H.
  cbn [mp np cos_alpha_col cos_alpha_row W_col W_row snd].
  rewrite !length_map, !length_map3, !length_map2, !length_map, M, !Nat.min_id.
  repeat split; reflexivity.
Qed.

Lemma mapM_geometry_error sdd mag l e :
  mapM (fun '(x, y, z) => geometry_xyz_to_uv_mag x y z sdd mag) l = Raise e ->
  e = invalid_geometry.
Proof.
  induction l as [|[[x y] z] l IH]; cbn [mapM]; [discriminate|].
  unfold geometry_xyz_to_uv_mag at 1.
  destruct (Req_dec_T _ _); cbn [bind]; [intros E; inversion E; reflexivity|].
  destruct (mapM _ l); cbn [bind]; [discriminate|].
  intros E; inversion E; subst. apply IH; reflexivity.
Qed.

Lemma voxel_footprints_error idx angle pp e :
  voxel_footprints idx angle pp = Raise e -> e = invalid_geometry.
Proof.
  unfold voxel_footprints.
  destruct (sinogram_shape pp) as [[nv nr] nc].
  destruct (recon_shape pp) as [[rr rc] rs].
  destruct (expand_ijk idx rr rc rs) as [[i j] k].
  destruct (mapM _ _) as [uvm|e'] eqn:M; cbn [bind]; [discriminate|].
  intros E; inversion E; subst. eapply mapM_geometry_error, M.
Qed.

(** ** The kernel builder *)

Lemma compute_sparse_error idx angle pp p e :
  compute_sparse_Bij_Cij_single_view idx angle pp p = Raise e ->
  e = invalid_geometry \/ e = incompatible_shapes.
Proof.
  unfold compute_sparse_Bij_Cij_single_view.
  destruct (sinogram_shape pp) as [[nv nr] nc].
  destruct (voxel_footprints idx angle pp) as [fp|e'] eqn:F; cbn [bind].
  - destruct (sparse_entries _ (W_col fp) _ _ _ _ _) as [[Bv Bc]|e'] eqn:B; cbn [bind].
    + destruct (sparse_entries _ (W_row fp) _ _ _ _ _) as [[Cv Cr]|e'] eqn:C; cbn [bind];
        [discriminate|].
      intros E; inversion E; subst. right. eapply sparse_entries_error, C.
    + intros E; inversion E; subst. right. eapply sparse_entries_error, B.
  - intros E; inversion E; subst. left. eapply voxel_footprints_error, F.
Qed.

Lemma compute_sparse_inv idx angle pp p Bv Bc Cv Cr :
  compute_sparse_Bij_Cij_single_view idx angle pp p = Ok (Bv, Bc, Cv, Cr) ->
  exists fp,
    voxel_footprints idx angle pp = Ok fp
    /\ sparse_entries (mp fp) (W_col fp) (cos_alpha_col fp)
                      (delta_pixel_recon (geometry pp)) (delta_det_channel (geometry pp))
                      (snd (sinogram_shape pp)) p = Ok (Bv, Bc)
    /\ sparse_entries (mp fp) (W_row fp) (cos_alpha_col fp)
                      (delta_pixel_recon (geometry pp)) (delta_det_row (geometry pp))
                      (snd (fst (sinogram_shape pp))) p = Ok (Cv, Cr).
Proof.
  unfold compute_sparse_Bij_Cij_single_view.
  destruct (sinogram_shape pp) as [[nv nr] nc].
  destruct (voxel_footprints idx angle pp) as [fp|e'] eqn:F; cbn [bind]; [|discriminate].
  destruct (sparse_entries _ (W_col fp) _ _ _ _ _) as [[Bv' Bc']|e'] eqn:B; cbn [bind];
    [|discriminate].
  destruct (sparse_entries _ (W_row fp) _ _ _ _ _) as [[Cv' Cr']|e'] eqn:C; cbn [bind];
    [|discriminate].
  intros E; inversion E; subst. exists fp. cbn [fst snd]. auto.
Qed.

(** The builder returns no arrays for a call with Nv pairs unless Nv is 1 or
    2p + 1, when the radius is at least 1. *)
Lemma compute_sparse_rejects idx angle pp p fp :
  voxel_footprints idx angle pp = Ok fp -> (1 <= p)%nat ->
  (length idx * snd (recon_shape pp))%nat <> 1%nat ->
  (length idx * snd (recon_shape pp))%nat <> (2 * p + 1)%nat ->
  compute_sparse_Bij_Cij_single_view idx angle pp p = Raise incompatible_shapes.
Proof.
  intros F Hp H1 HP. unfold compute_sparse_Bij_Cij_single_view.
  destruct (sinogram_shape pp) as [[nv nr] nc]. rewrite F. cbn [bind].
  apply footprints_length in F as (Hm & _ & _ & _ & Hw & _).
  rewrite sparse_entries_rejects;
    [reflexivity | congruence | assumption | | ]; rewrite Hm; assumption.
Qed.

(** When the builder does return, with a radius of at least 1, all four
    arrays have shape (N * num_slices, 2p + 1), and both index arrays hold,
    for each pair, the window around the rounded row coordinate mp. *)
Lemma compute_sparse_returned idx angle pp p Bv Bc Cv Cr :
  (1 <= p)%nat ->
  compute_sparse_Bij_Cij_single_view idx angle pp p = Ok (Bv, Bc, Cv, Cr) ->
  let shp := ((length idx * snd (recon_shape pp))%nat, (2 * p + 1)%nat) in
  shape2 Bv = shp /\ shape2 Bc = shp /\ shape2 Cv = shp /\ shape2 Cr = shp
  /\ exists fp, voxel_footprints idx angle pp = Ok fp
                /\ rows Bc = map (fun m => Spec.centred_window (round m) p) (mp fp)
                /\ rows Cr = map (fun m => Spec.centred_window (round m) p) (mp fp).
Proof.
  intros Hp H. apply compute_sparse_inv in H as (fp & F & B & C).
  pose proof (footprints_length _ _ _ _ F) as (Hm & _).
  pose proof (sparse_entries_shape _ _ _ _ _ _ _ _ _ Hp B) as [S1 S2].
  pose proof (sparse_entries_shape _ _ _ _ _ _ _ _ _ Hp C) as [S3 S4].
  rewrite Hm in S1, S2, S3, S4. repeat (split; [assumption|]).
  exists fp. split; [exact F|].
  apply sparse_entries_inv in B, C. subst Bc Cr.
  rewrite !candidate_rows_are_windows, map_map. auto.
Qed.

(** ** Running the geometry on a voxel at the iso-centre *)

Lemma round_IZR z : round (IZR z) = z.
Proof.
  unfold round. rewrite (Zfloor_eq z (IZR z)) by lra.
  destruct (Rlt_dec _ _) as [|H]; [reflexivity|]. exfalso; apply H; lra.
Qed.

Lemma round_0 : round 0 = 0%Z.
Proof. apply (round_IZR 0). Qed.

Lemma round_1 : round 1 = 1%Z.
Proof. apply (round_IZR 1). Qed.

Lemma arctan2_0 x : 0 < x -> arctan2 0 x = 0.
Proof.
  intros Hx. unfold arctan2. destruct (Rlt_dec 0 x); [|contradiction].
  unfold Rdiv. rewrite Rmult_0_l. apply atan_0.
Qed.

Lemma nat2R_1 : nat2R 1 = 1.
Proof. reflexivity. Qed.

Lemma nat2R_2 : nat2R 2 = 2.
Proof. reflexivity. Qed.

Lemma nat2R_3 : nat2R 3 = 3.
Proof. reflexivity. Qed.

Lemma recon_ijk_centre dp off angle :
  recon_ijk_to_xyz 0 0 0 dp 1 1 1 off angle = (0, 0, off).
Proof.
  unfold recon_ijk_to_xyz. rewrite nat2R_1.
  apply (f_equal2 pair); [apply (f_equal2 pair)|]; lra.
Qed.

Lemma geometry_ok x y z sdd mag :
  sdd / mag - y <> 0 ->
  geometry_xyz_to_uv_mag x y z sdd mag
  = Ok (sdd / (sdd / mag - y) * x, sdd / (sdd / mag - y) * z, sdd / (sdd / mag - y)).
Proof.
  intros Hy. unfold geometry_xyz_to_uv_mag.
  destruct (Req_dec_T _ _); [contradiction | reflexivity].
Qed.

Lemma geometry_on_axis z sdd mag :
  sdd <> 0 -> mag <> 0 ->
  geometry_xyz_to_uv_mag 0 0 z sdd mag = Ok (0, mag * z, mag).
Proof.
  intros Hs Hm.
  assert (Hq : sdd / mag - 0 <> 0).
  { unfold Rdiv. rewrite Rminus_0_r. apply Rmult_integral_contrapositive_currified.
    - exact Hs.
    - apply Rinv_neq_0_compat, Hm. }
  rewrite geometry_ok by exact Hq.
  assert (Hp : sdd / (sdd / mag - 0) = mag) by (field; auto).
  rewrite Hp, Rmult_0_r. reflexivity.
Qed.

Lemma detector_centre rot ddc ddr co ro Nr Nc :
  detector_uv_to_mn 0 0 rot ddc ddr co ro Nr Nc
  = ((nat2R Nr - 1) / 2 + ro, (nat2R Nc - 1) / 2 + co).
Proof.
  unfold detector_uv_to_mn. apply (f_equal2 pair); unfold Rdiv; ring.
Qed.

Lemma cos_alpha_on_axis : Rmax (Rabs (cos 0)) (Rabs (sin 0)) = 1.
Proof.
  rewrite cos_0, sin_0, Rabs_R0, Rabs_R1. apply Rmax_left; lra.
Qed.

Lemma cos_alpha_quarter_turn : Rmax (Rabs (cos (PI / 4))) (Rabs (sin (PI / 4))) = 1 / sqrt 2.
Proof.
  rewrite cos_PI4, sin_PI4.
  assert (0 < sqrt 2) by (apply sqrt_lt_R0; lra).
  assert (0 < 1 / sqrt 2) by (apply Rdiv_lt_0_compat; lra).
  rewrite Rabs_pos_eq by lra. apply Rmax_left; lra.
Qed.

Lemma sqrt2_neq_1 : sqrt 2 <> 1.
Proof.
  intros E. pose proof (sqrt_def 2 ltac:(lra)) as H. rewrite E in H. lra.
Qed.

(** The footprints of a call with the single voxel of a 1 x 1 x 1 volume. *)
Lemma footprints_centred_voxel angle g Nv Nr Nc :
  0 < source_detector_dist g -> magnification g <> 0 -> recon_slice_offset g = 0 ->
  voxel_footprints [0%Z] angle (mkProjector (Nv, Nr, Nc) (1, 1, 1)%nat g)
  = Ok (mkFootprints
          [(nat2R Nr - 1) / 2 + det_row_offset g]
          [(nat2R Nc - 1) / 2 + det_channel_offset g]
          [Rmax (Rabs (cos angle)) (Rabs (sin angle))]
          [1]
          [magnification g * (delta_pixel_recon g / delta_det_channel g)
           * Rmax (Rabs (cos angle)) (Rabs (sin angle))]
          [magnification g * (delta_pixel_recon g / delta_det_row g)]).
Proof.
  intros Hs Hm Ho. unfold voxel_footprints.
  cbn -[recon_ijk_to_xyz geometry_xyz_to_uv_mag detector_uv_to_mn
        cos sin Rmax Rabs arctan2 IZR Rdiv].
  rewrite recon_ijk_centre, Ho, geometry_on_axis by (auto; lra).
  cbn -[detector_uv_to_mn cos sin Rmax Rabs arctan2 IZR Rdiv].
  rewrite Rmult_0_r, detector_centre, arctan2_0 by assumption.
  cbn [fst snd]. rewrite Rminus_0_r, cos_alpha_on_axis, cos_0, !Rdiv_1_r, Rmult_1_r.
  reflexivity.
Qed.

Lemma sparse_entries_single m w c dp dd nd :
  sparse_entries [m] [w] [c] dp dd nd 1
  = Ok (mkArray2 3 [[entry m w c dp dd nd (-1); entry m w c dp dd nd 0;
                     entry m w c dp dd nd 1]],
        mkArray2 3 [[(round m + -1)%Z; (round m + 0)%Z; (round m + 1)%Z]]).
Proof. reflexivity. Qed.

Lemma kernel_centred_voxel angle g Nv Nr Nc :
  0 < source_detector_dist g -> magnification g <> 0 -> recon_slice_offset g = 0 ->
  let m := (nat2R Nr - 1) / 2 + det_row_offset g in
  let c := Rmax (Rabs (cos angle)) (Rabs (sin angle)) in
  let wc := magnification g * (delta_pixel_recon g / delta_det_channel g) * c in
  let wr := magnification g * (delta_pixel_recon g / delta_det_row g) in
  let B := entry m wc c (delta_pixel_recon g) (delta_det_channel g) Nc in
  let C := entry m wr c (delta_pixel_recon g) (delta_det_row g) Nr in
  let idx := mkArray2 3 [[(round m + -1)%Z; (round m + 0)%Z; (round m + 1)%Z]] in
  compute_sparse_Bij_Cij_single_view [0%Z] angle (mkProjector (Nv, Nr, Nc) (1, 1, 1)%nat g) 1
  = Ok (mkArray2 3 [[B (-1)%Z; B 0%Z; B 1%Z]], idx, mkArray2 3 [[C (-1)%Z; C 0%Z; C 1%Z]], idx).
Proof.
  intros Hs Hm Ho. unfold compute_sparse_Bij_Cij_single_view.
  cbn [sinogram_shape geometry].
  rewrite footprints_centred_voxel by assumption.
  cbn [bind mp W_col W_row cos_alpha_col].
  rewrite !sparse_entries_single. reflexivity.
Qed.

Lemma kernel_one_voxel :
  compute_sparse_Bij_Cij_single_view [0%Z] 0 one_voxel 1 = Ok unit_kernel.
Proof.
  unfold one_voxel. rewrite kernel_centred_voxel by (cbn; lra).
  cbn [unit_geometry det_row_offset magnification delta_pixel_recon
       delta_det_channel delta_det_row].
  rewrite nat2R_1.
  replace ((1 - 1) / 2 + 0) with (IZR 0) by lra.
  unfold entry. rewrite round_IZR.
  cbn -[IZR Rmax Rabs cos sin Rdiv].
  rewrite cos_alpha_on_axis.
  rcalc. unfold b2r, unit_kernel.
  arrays_lra.
Qed.

Lemma kernel_one_voxel_tall :
  compute_sparse_Bij_Cij_single_view [0%Z] 0 one_voxel_tall 1 = Ok tall_kernel.
Proof.
  unfold one_voxel_tall. rewrite kernel_centred_voxel by (cbn; lra).
  cbn [tall_geometry det_row_offset magnification delta_pixel_recon
       delta_det_channel delta_det_row].
  rewrite nat2R_1.
  replace ((1 - 1) / 2 + 0) with (IZR 0) by lra.
  unfold entry. rewrite round_IZR.
  cbn -[IZR Rmax Rabs cos sin Rdiv].
  rewrite cos_alpha_on_axis.
  rcalc. unfold b2r, tall_kernel.
  arrays_lra.
Qed.

Lemma forward_one_voxel :
  forward_project_voxels_one_view unit_voxel_values [0%Z] 0 one_voxel
  = Ok (mkArray2 1 [[1]]).
Proof.
  unfold forward_project_voxels_one_view.
  cbn [shape unit_voxel_values sinogram_shape one_voxel]. fold one_voxel.
  rewrite kernel_one_voxel.
  cbn -[IZR Rplus Rmult].
  arrays_lra.
Qed.

Lemma back_one_voxel n v :
  (-1) ^ n + 1 ^ n + 7 * 0 ^ n = v ->
  back_project_one_view_to_voxel unit_detector_view [0%Z] 0 one_voxel n = Ok [v].
Proof.
  intros Hv. unfold back_project_one_view_to_voxel.
  cbn [unit_detector_view nrows ncols rows length recon_shape geometry one_voxel].
  fold one_voxel.
  rewrite kernel_one_voxel. cbn -[IZR Rplus Rmult pow].
  replace (0 * -1) with 0 by lra. replace (0 * 0) with 0 by lra.
  replace (0 * 1) with 0 by lra. replace (1 * 0) with 0 by lra.
  replace (1 * -1) with (-1) by lra. replace (1 * 1) with 1 by lra.
  arrays_lra.
Qed.

Lemma footprints_two_voxels :
  exists fp, voxel_footprints [0; 1]%Z 0 two_voxels = Ok fp.
Proof.
  unfold voxel_footprints.
  cbn -[geometry_xyz_to_uv_mag detector_uv_to_mn cos sin Rmax Rabs arctan2 IZR Rdiv nat2R].
  rewrite !geometry_ok by (rewrite ?nat2R_1, ?nat2R_2, sin_0, cos_0; lra).
  cbn [bind]. eexists; reflexivity.
Qed.

Lemma footprints_two_slices :
  exists fp, voxel_footprints [0%Z] 0 two_slices = Ok fp.
Proof.
  unfold voxel_footprints.
  cbn -[geometry_xyz_to_uv_mag detector_uv_to_mn cos sin Rmax Rabs arctan2 IZR Rdiv nat2R].
  rewrite !geometry_ok by (rewrite ?nat2R_1, ?nat2R_2, sin_0, cos_0; lra).
  cbn [bind]. eexists; reflexivity.
Qed.

(** ** The scatter-add, and the forward projector where it returns *)

Lemma update_length {A} (f : A -> A) i l : length (update f i l) = length l.
Proof.
  revert i; induction l as [|x l IH]; intros [|i]; cbn; auto.
Qed.

Lemma update_map2 {A B C} (g : A -> B -> C) (h : C -> C) (f1 : A -> A) (f2 : B -> B) i l1 l2 :
  (forall x y, h (g x y) = g (f1 x) (f2 y)) ->
  update h i (map2 g l1 l2) = map2 g (update f1 i l1) (update f2 i l2).
Proof.
  intros Hh. revert i l2; induction l1 as [|x l1 IH]; intros i [|y l2]; cbn.
  - destruct i; reflexivity.
  - destruct i; reflexivity.
  - destruct i; cbn; destruct l1; reflexivity.
  - destruct i as [|i]; cbn; [rewrite Hh; reflexivity|]. f_equal. apply IH.
Qed.

Lemma nth_axpby a x b y i :
  length x = length y -> nth i (axpby a x b y) 0 = a * nth i x 0 + b * nth i y 0.
Proof.
  unfold axpby. revert y i; induction x as [|u x IH]; intros [|v y] i Hl; try discriminate.
  - destruct i; cbn; ring.
  - destruct i as [|i]; cbn; [reflexivity|]. apply IH. cbn in Hl. lia.
Qed.

Lemma nrows_axpby2 a x b y : nrows x = nrows y -> nrows (axpby2 a x b y) = nrows x.
Proof.
  unfold nrows, axpby2; cbn [rows]. intros Hl. rewrite length_map2, Hl. apply Nat.min_id.
Qed.

Lemma add_at_shape A r c v : nrows (add_at A r c v) = nrows A /\ ncols (add_at A r c v) = ncols A.
Proof.
  unfold add_at. destruct (in_bounds (nrows A) r); [destruct (in_bounds (ncols A) c)|];
    unfold nrows; cbn [rows ncols]; rewrite ?update_length; auto.
Qed.

Lemma add_at_axpby2 a A1 b A2 r c u v :
  nrows A1 = nrows A2 -> ncols A1 = ncols A2 ->
  add_at (axpby2 a A1 b A2) r c (a * u + b * v)
  = axpby2 a (add_at A1 r c u) b (add_at A2 r c v).
Proof.
  intros Hr Hc. unfold add_at. rewrite nrows_axpby2 by exact Hr.
  change (ncols (axpby2 a A1 b A2)) with (ncols A1). rewrite <- Hr, <- Hc.
  destruct (in_bounds (nrows A1) r) as [r'|]; [|reflexivity].
  destruct (in_bounds (ncols A1) c) as [c'|]; [|reflexivity].
  unfold axpby2; cbn [rows ncols]. f_equal.
  apply update_map2. intros x y. unfold axpby. apply update_map2.
  intros p q. ring.
Qed.

Lemma fold_add_at_axpby2 {X} (ez ex ey : X -> Z * Z * R) a b cells A1 A2 :
  (forall e, exists r c u v,
      ex e = (r, c, u) /\ ey e = (r, c, v) /\ ez e = (r, c, a * u + b * v)) ->
  nrows A1 = nrows A2 -> ncols A1 = ncols A2 ->
  fold_left (fun acc e => let '(r, c, v) := e in add_at acc r c v)
            (map ez cells) (axpby2 a A1 b A2)
  = axpby2 a
      (fold_left (fun acc e => let '(r, c, v) := e in add_at acc r c v) (map ex cells) A1)
      b
      (fold_left (fun acc e => let '(r, c, v) := e in add_at acc r c v) (map ey cells) A2).
Proof.
  intros He. revert A1 A2; induction cells as [|e cells IH]; intros A1 A2 Hr Hc;
    cbn [map fold_left].
  - reflexivity.
  - destruct (He e) as (r & c & u & v & -> & -> & ->).
    rewrite add_at_axpby2 by assumption. apply IH.
    + destruct (add_at_shape A1 r c u) as [-> _].
      destruct (add_at_shape A2 r c v) as [-> _]. exact Hr.
    + destruct (add_at_shape A1 r c u) as [_ ->].
      destruct (add_at_shape A2 r c v) as [_ ->]. exact Hc.
Qed.

Lemma combine_map3 {X} (fr fc : X -> Z) (fv : X -> R) cells :
  combine (combine (map fr cells) (map fc cells)) (map fv cells)
  = map (fun e => (fr e, fc e, fv e)) cells.
Proof.
  induction cells as [|e cells IH]; cbn; [reflexivity|]. f_equal. exact IH.
Qed.

Lemma zeros_axpby2 a b nr nc : zeros nr nc = axpby2 a (zeros nr nc) b (zeros nr nc).
Proof.
  unfold zeros, axpby2; cbn [rows ncols]. f_equal.
  induction nr as [|nr IH]; cbn [repeat map2]; [reflexivity|].
  f_equal; [|exact IH].
  unfold axpby. clear. induction nc as [|nc IH]; cbn [repeat map2]; [reflexivity|].
  f_equal; [ring | exact IH].
Qed.

(** Where the forward projector returns, it is linear in [voxel_values]. *)
Lemma forward_linear_where_returned a b x y idx angle pp X Y :
  shape x = shape y -> length (data x) = length (data y) ->
  forward_project_voxels_one_view x idx angle pp = Ok X ->
  forward_project_voxels_one_view y idx angle pp = Ok Y ->
  forward_project_voxels_one_view (nd_axpby a x b y) idx angle pp = Ok (axpby2 a X b Y).
Proof.
  intros Hs Hl. unfold forward_project_voxels_one_view.
  cbn [shape nd_axpby]. rewrite <- Hs.
  destruct (shape x) as [|n [|s [|? ?]]]; try discriminate.
  destruct (sinogram_shape pp) as [[nv nr] nc].
  destruct (compute_sparse_Bij_Cij_single_view idx angle pp 1)
    as [[[[Bv Bc] Cv] Cr]|e]; cbn [bind]; [|discriminate].
  destruct (bdim (ncols Bv) s) as [w|]; [|discriminate].
  destruct (_ && _); [|discriminate].
  unfold index_add; cbn [fst snd].
  intros EX EY. inversion EX; subst X; clear EX. inversion EY; subst Y; clear EY.
  f_equal.
  rewrite !combine_map3.
  rewrite (zeros_axpby2 a b) at 1.
  apply fold_add_at_axpby2; [|reflexivity|reflexivity].
  intros [[[n0 k] a0] b0]. do 4 eexists. split; [reflexivity|]. split; [reflexivity|].
  f_equal. unfold nd_get2. cbn [data nd_axpby]. rewrite nth_axpby by exact Hl. ring.
Qed.

Lemma update_id {A} (f : A -> A) i l : (forall x, f x = x) -> update f i l = l.
Proof.
  intros Hf. revert i; induction l as [|x l IH]; intros [|i]; cbn; try reflexivity.
  - now rewrite Hf.
  - now rewrite IH.
Qed.

Lemma add_at_zero A r c v : v = 0 -> add_at A r c v = A.
Proof.
  intros ->. unfold add_at.
  destruct (in_bounds (nrows A) r); [|reflexivity].
  destruct (in_bounds (ncols A) c); [|reflexivity].
  rewrite update_id; [destruct A; reflexivity|].
  intros row. apply update_id. intros x. ring.
Qed.

Lemma fold_add_at_zero {X} (ez : X -> Z * Z * R) cells A :
  (forall e, snd (ez e) = 0) ->
  fold_left (fun acc e => let '(r, c, v) := e in add_at acc r c v) (map ez cells) A = A.
Proof.
  intros He. induction cells as [|e cells IH]; cbn [map fold_left]; [reflexivity|].
  specialize (He e). destruct (ez e) as [[r c] v]. cbn [snd] in He.
  rewrite add_at_zero by exact He. exact IH.
Qed.

Lemma nth_all_zero (l : list R) i : Forall (fun v => v = 0) l -> nth i l 0 = 0.
Proof.
  intros Hl. destruct (nth_in_or_default i l 0) as [Hin | ->]; [|reflexivity].
  rewrite Forall_forall in Hl. apply Hl, Hin.
Qed.

(** Where the forward projector returns, an all-zero [voxel_values] gives
    the all-zero detector view. *)
Lemma forward_zero_where_returned x idx angle pp V :
  Forall (fun v => v = 0) (data x) ->
  forward_project_voxels_one_view x idx angle pp = Ok V ->
  V = zeros (snd (fst (sinogram_shape pp))) (snd (sinogram_shape pp)).
Proof.
  intros Hx. unfold forward_project_voxels_one_view.
  destruct (shape x) as [|n [|s [|? ?]]]; try discriminate.
  destruct (sinogram_shape pp) as [[nv nr] nc].
  destruct (compute_sparse_Bij_Cij_single_view idx angle pp 1)
    as [[[[Bv Bc] Cv] Cr]|e]; cbn [bind]; [|discriminate].
  destruct (bdim (ncols Bv) s) as [w|]; [|discriminate].
  destruct (_ && _); [|discriminate].
  unfold index_add; cbn [fst snd]. rewrite combine_map3.
  intros E; inversion E; subst V; clear E.
  apply fold_add_at_zero. intros [[[n0 k] a0] b0]. cbn [snd].
  unfold nd_get2. rewrite nth_all_zero by exact Hx. ring.
Qed.

(** Whether the forward projector returns depends on the shape of
    [voxel_values] only, not on its entries. *)
Lemma forward_outcome_by_shape x y idx angle pp :
  shape x = shape y ->
  match forward_project_voxels_one_view x idx angle pp,
        forward_project_voxels_one_view y idx angle pp with
  | Ok _, Ok _ => True
  | Raise e1, Raise e2 => e1 = e2
  | _, _ => False
  end.
Proof.
  intros Hs. unfold forward_project_voxels_one_view. rewrite <- Hs.
  destruct (shape x) as [|n [|s [|? ?]]]; try reflexivity.
  destruct (sinogram_shape pp) as [[nv nr] nc].
  destruct (compute_sparse_Bij_Cij_single_view idx angle pp 1)
    as [[[[Bv Bc] Cv] Cr]|e]; cbn [bind]; [|reflexivity].
  destruct (bdim (ncols Bv) s) as [w|]; [|reflexivity].
  destruct (_ && _); [exact I | reflexivity].
Qed.

(** Linearity with the outcomes of the calls: the projection of
    [a * x + b * y] is [a * forward(x) + b * forward(y)], an exception on
    one side being the same exception on the other. *)
Lemma forward_linear a b x y idx angle pp :
  shape x = shape y -> length (data x) = length (data y) ->
  forward_project_voxels_one_view (nd_axpby a x b y) idx angle pp
  = lift_axpby2 a (forward_project_voxels_one_view x idx angle pp)
                b (forward_project_voxels_one_view y idx angle pp).
Proof.
  intros Hs Hl.
  pose proof (forward_outcome_by_shape x y idx angle pp Hs) as Hxy.
  pose proof (forward_outcome_by_shape x (nd_axpby a x b y) idx angle pp eq_refl) as Hxz.
  pose proof (forward_linear_where_returned a b x y idx angle pp) as Hlin.
  destruct (forward_project_voxels_one_view x idx angle pp) as [X|ex];
    destruct (forward_project_voxels_one_view y idx angle pp) as [Y|ey];
    try contradiction; unfold lift_axpby2; cbn [bind].
  - apply Hlin; auto.
  - destruct (forward_project_voxels_one_view (nd_axpby a x b y) idx angle pp);
      [contradiction | congruence].
Qed.

(** * The claims *)

(** C1 (adjointness with coeff_power = 1), run on the code. For one voxel
    in one slice at the iso-centre, a 1 x 1 detector, unit geometry and
    angle 0, with x = [[1]] and y = [[1]]: the forward projection is [[1]],
    so dot(forward(x), y) = 1, while the back projection is [0], so
    dot(x, back(y)) = 0. The two sides of the adjoint identity differ. *)
Theorem adjoint_identity_fails_for_one_voxel :
  exists detector_view back_projection,
    forward_project_voxels_one_view unit_voxel_values [0%Z] 0 one_voxel = Ok detector_view
    /\ back_project_one_view_to_voxel unit_detector_view [0%Z] 0 one_voxel 1
       = Ok back_projection
    /\ dot (flatten detector_view) (flatten unit_detector_view) = 1
    /\ dot (data unit_voxel_values) back_projection = 0
    /\ dot (flatten detector_view) (flatten unit_detector_view)
       <> dot (data unit_voxel_values) back_projection.
Proof.
  exists (mkArray2 1 [[1]]), [0]. split; [exact forward_one_voxel|split].
  - apply back_one_voxel. cbn [pow]. lra.
  - repeat split; cbn -[IZR Rplus Rmult]; lra.
Qed.

(** C2 (forward weights are the outer product of Bij_value and Cij_value,
    placed at (Cij_row, Bij_channel)), run on the code. With detector rows
    twice as tall as the channels are wide, the kernel of the single voxel
    has Bij_value = [0, 1, 0] and Cij_value = [0, 1/2, 0]. The projector of
    the source returns [[1]], the product of two Bij_value entries; the
    projection worded by the claim, from the same kernel, is [[1/2]]. *)
Theorem forward_weights_are_not_the_claimed_outer_product :
  compute_sparse_Bij_Cij_single_view [0%Z] 0 one_voxel_tall 1 = Ok tall_kernel
  /\ forward_project_voxels_one_view unit_voxel_values [0%Z] 0 one_voxel_tall
     = Ok (mkArray2 1 [[1]])
  /\ Spec.forward_project_view unit_voxel_values 1 tall_kernel 1 1 = mkArray2 1 [[1 / 2]].
Proof.
  split; [exact kernel_one_voxel_tall|split].
  - unfold forward_project_voxels_one_view.
    cbn [shape unit_voxel_values sinogram_shape one_voxel_tall]. fold one_voxel_tall.
    rewrite kernel_one_voxel_tall.
    cbn -[IZR Rplus Rmult Rdiv].
    arrays_lra.
  - cbn -[IZR Rplus Rmult Rdiv]. arrays_lra.
Qed.

(** C3 (back-projection weights are (Bij_value * Cij_value) ** coeff_power),
    run on the code. For the single voxel and the detector view [[1]], the
    kernel has Bij_value = Cij_value = [0, 1, 0] and Cij_row = [-1, 0, 1].
    The back projector of the source returns [0] for coeff_power = 1 and
    [2] for coeff_power = 2, the sums of (1 * row index) ** coeff_power; the
    back projection worded by the claim, from the same kernel, is [1] for
    both powers. *)
Theorem back_weights_are_not_the_claimed_product :
  compute_sparse_Bij_Cij_single_view [0%Z] 0 one_voxel 1 = Ok unit_kernel
  /\ back_project_one_view_to_voxel unit_detector_view [0%Z] 0 one_voxel 1 = Ok [0]
  /\ Spec.back_project_view unit_detector_view unit_kernel 1 = [1]
  /\ back_project_one_view_to_voxel unit_detector_view [0%Z] 0 one_voxel 2 = Ok [2]
  /\ Spec.back_project_view unit_detector_view unit_kernel 2 = [1].
Proof.
  split; [exact kernel_one_voxel|].
  repeat split.
  - apply back_one_voxel. cbn [pow]. lra.
  - cbn -[IZR Rplus Rmult]. arrays_lra.
  - apply back_one_voxel. cbn [pow]. lra.
  - cbn -[IZR Rplus Rmult]. arrays_lra.
Qed.

(** C4 (Bij_channel is centred at round(n), Cij_row at round(m)), run on the
    code. For the single voxel and a detector of 1 row and 3 channels, the
    fractional coordinates are m = 0 (rows) and n = 1 (channels). Cij_row is
    the window around round(m) = 0, as claimed, but Bij_channel is that same
    window, [-1, 0, 1], and not the window [0, 1, 2] around round(n) = 1. *)
Theorem channel_window_is_centred_on_row_coordinate :
  exists fp Bij_value Bij_channel Cij_value Cij_row,
    voxel_footprints [0%Z] 0 one_voxel_three_channels = Ok fp
    /\ compute_sparse_Bij_Cij_single_view [0%Z] 0 one_voxel_three_channels 1
       = Ok (Bij_value, Bij_channel, Cij_value, Cij_row)
    /\ mp fp = [0] /\ np fp = [1]
    /\ rows Cij_row = [Spec.centred_window (round 0) 1]
    /\ rows Bij_channel = [Spec.centred_window (round 0) 1]
    /\ rows Bij_channel <> [Spec.centred_window (round 1) 1].
Proof.
  unfold one_voxel_three_channels.
  do 5 eexists. split; [|split].
  - apply footprints_centred_voxel; cbn; lra.
  - apply kernel_centred_voxel; cbn; lra.
  - cbn [mp np rows unit_geometry det_row_offset det_channel_offset].
    replace ((nat2R 1 - 1) / 2 + 0) with 0 by (rewrite nat2R_1; lra).
    replace ((nat2R 3 - 1) / 2 + 0) with 1 by (rewrite nat2R_3; lra).
    rewrite round_0, round_1. cbn.
    repeat split; try reflexivity. discriminate.
Qed.

(** C5 (each direction's weight uses its own cos_alpha and pitch), run on
    the code. For the single voxel at view angle pi/4 the footprints have
    cos_alpha_col = 1/sqrt 2 and cos_alpha_row = 1, with W_row = 2 and
    m = 0. The centre tap of the row direction is in bounds (index 0); the
    source gives it the weight sqrt 2, which is
    (voxel_pitch / cos_alpha_col) * (L / delta_det_row), where the claim
    gives (voxel_pitch / cos_alpha_row) * (L / delta_det_row) = 1. *)
Theorem row_weight_uses_channel_cosine :
  exists fp Bij_value Bij_channel Cij_value Cij_row,
    voxel_footprints [0%Z] (PI / 4) one_voxel = Ok fp
    /\ compute_sparse_Bij_Cij_single_view [0%Z] (PI / 4) one_voxel 1
       = Ok (Bij_value, Bij_channel, Cij_value, Cij_row)
    /\ mp fp = [0] /\ W_row fp = [2] /\ cos_alpha_row fp = [1]
    /\ cos_alpha_col fp = [1 / sqrt 2]
    /\ lookup Cij_row 0 1 = Some 0%Z
    /\ lookup Cij_value 0 1 = Some (sqrt 2)
    /\ Spec.weight 1 1 (Spec.overlap 2 0 0) 1 = 1
    /\ sqrt 2 <> 1.
Proof.
  unfold one_voxel.
  do 5 eexists. split; [|split].
  - apply footprints_centred_voxel; cbn; lra.
  - apply kernel_centred_voxel; cbn; lra.
  - cbn [mp W_row cos_alpha_row cos_alpha_col unit_geometry det_row_offset magnification
           delta_pixel_recon delta_det_row delta_det_channel].
    rewrite cos_alpha_quarter_turn, nat2R_1.
    replace ((1 - 1) / 2 + 0) with 0 by lra.
    assert (Hs : 0 < sqrt 2) by (apply sqrt_lt_R0; lra).
    repeat split.
    + f_equal. lra.
    + unfold lookup; cbn [rows nth_error]. rewrite round_0. reflexivity.
    + unfold lookup; cbn [rows nth_error]. f_equal. unfold entry.
      rewrite round_0. cbn -[IZR Rmax Rabs Rdiv sqrt].
      replace (2 * (1 / 1)) with 2 by lra.
      rcalc. cbn [b2r]. field. lra.
    + unfold Spec.weight, Spec.overlap. rcalc. lra.
    + exact sqrt2_neq_1.
Qed.

(** C6 (bounds zeroing). Whenever the kernel builder returns its four
    arrays: every entry of Bij_value whose candidate channel index is
    outside [0, num_det_channels) is present and equal to 0; every entry of
    Cij_value whose candidate row index is outside [0, num_det_rows) is
    present and equal to 0; and every one of the 2p + 1 candidates of every
    pair is present in the index arrays, in range or not. *)
Theorem out_of_bounds_weights_are_zero
        idx angle pp p Bij_value Bij_channel Cij_value Cij_row :
  compute_sparse_Bij_Cij_single_view idx angle pp p
  = Ok (Bij_value, Bij_channel, Cij_value, Cij_row) ->
  let num_det_rows := snd (fst (sinogram_shape pp)) in
  let num_det_channels := snd (sinogram_shape pp) in
  (forall k t c, lookup Bij_channel k t = Some c ->
                 (c < 0 \/ Z.of_nat num_det_channels <= c)%Z ->
                 lookup Bij_value k t = Some 0)
  /\ (forall k t c, lookup Cij_row k t = Some c ->
                    (c < 0 \/ Z.of_nat num_det_rows <= c)%Z ->
                    lookup Cij_value k t = Some 0)
  /\ (forall k t, (k < length idx * snd (recon_shape pp))%nat -> (t < 2 * p + 1)%nat ->
                  (exists c, lookup Bij_channel k t = Some c)
                  /\ (exists c, lookup Cij_row k t = Some c)).
Proof.
  intros H. apply compute_sparse_inv in H as (fp & F & B & C).
  apply footprints_length in F as (Hm & _ & Hc & _ & Hwc & Hwr).
  split; [|split].
  - eapply sparse_entries_zero; [| | exact B]; congruence.
  - eapply sparse_entries_zero; [| | exact C]; congruence.
  - intros k t Hk Ht.
    apply sparse_entries_inv in B, C. subst Bij_channel Cij_row.
    rewrite candidate_total by (rewrite ?length_map, ?Hm; assumption).
    split; eexists; reflexivity.
Qed.

(** For the single voxel the candidates -1 and 1 are out of the 1 x 1
    detector, and their weights are present and zero. *)
Lemma out_of_bounds_weights_witness :
  compute_sparse_Bij_Cij_single_view [0%Z] 0 one_voxel 1 = Ok unit_kernel
  /\ lookup (mkArray2 3 [[-1; 0; 1]]%Z) 0 0 = Some (-1)%Z
  /\ lookup (mkArray2 3 [[0; 1; 0]]) 0 0 = Some 0
  /\ lookup (mkArray2 3 [[-1; 0; 1]]%Z) 0 2 = Some 1%Z
  /\ lookup (mkArray2 3 [[0; 1; 0]]) 0 2 = Some 0.
Proof.
  pose proof (out_of_bounds_weights_are_zero [0%Z] 0 one_voxel 1 _ _ _ _ kernel_one_voxel)
    as (HB & HC & _).
  split; [exact kernel_one_voxel|].
  split; [reflexivity|]. split.
  - apply (HB 0%nat 0%nat (-1)%Z); [reflexivity | left; reflexivity].
  - split; [reflexivity|].
    apply (HC 0%nat 2%nat 1%Z); [reflexivity | right; cbn; lia].
Defined.

Section ValidationFacts.

Variable super_verify_valid_params : model -> result unit.

(** C7 (validation). When the validation of the base class passes,
    [verify_valid_params] raises its error exactly when the number of rows
    of the view-dependent parameter array differs from the number of views
    or the number of recon slices differs from the number of detector
    rows, and returns normally exactly when both agree. The validation
    reads the parameters only; no projector is called. *)
Theorem verify_valid_params_raises_iff self :
  super_verify_valid_params self = Ok tt ->
  let num_views := fst (fst (model_sinogram_shape self)) in
  let num_det_rows := snd (fst (model_sinogram_shape self)) in
  let num_recon_slices := snd (model_recon_shape self) in
  ((exists msg, verify_valid_params super_verify_valid_params self = Raise (ValueError msg))
   <-> (nrows (view_params_array self) <> num_views \/ num_recon_slices <> num_det_rows))
  /\ (verify_valid_params super_verify_valid_params self = Ok tt
      <-> (nrows (view_params_array self) = num_views /\ num_recon_slices = num_det_rows)).
Proof.
  intros Hs. unfold verify_valid_params. rewrite Hs. cbn [bind].
  destruct (model_sinogram_shape self) as [[nv nr] nc].
  destruct (model_recon_shape self) as [[rr rc] rs]. cbn [fst snd].
  destruct (Nat.eqb_spec (nrows (view_params_array self)) nv) as [Hv|Hv]; cbn [negb].
  - destruct (Nat.eqb_spec rs nr) as [Hr|Hr]; cbn [negb].
    + split; split.
      * intros [msg E]. discriminate.
      * intros [X|X]; contradiction.
      * auto.
      * reflexivity.
    + split; split.
      * auto.
      * intros _. eexists; reflexivity.
      * discriminate.
      * intros [_ X]; contradiction.
  - split; split.
    + auto.
    + intros _. eexists; reflexivity.
    + discriminate.
    + intros [X _]; contradiction.
Qed.

End ValidationFacts.

(** The example of C7: 16 angles for a sinogram of 32 views are rejected. *)
Lemma verify_valid_params_witness :
  nrows (view_params_array model_16_angles) = 16%nat
  /\ fst (fst (model_sinogram_shape model_16_angles)) = 32%nat
  /\ exists msg,
      verify_valid_params (fun _ => Ok tt) model_16_angles = Raise (ValueError msg).
Proof.
  split; [reflexivity|]. split; [reflexivity|].
  apply (proj1 (verify_valid_params_raises_iff (fun _ => Ok tt) model_16_angles eq_refl)).
  left. cbn. lia.
Defined.

(** C8 (shape (N * num_slices, 2p + 1) of the four arrays), run on the
    code. For two voxels in one slice and the default radius p = 1 the
    claim describes arrays of shape (2, 3); the builder returns no array:
    the rank-1 arrays tmp1, tmp2 and cos_alpha_col, of shape (2,), do not
    broadcast against the (2, 3) arrays. *)
Theorem kernel_rejects_two_voxels :
  compute_sparse_Bij_Cij_single_view [0; 1]%Z 0 two_voxels 1 = Raise incompatible_shapes.
Proof.
  destruct footprints_two_voxels as [fp F].
  apply (compute_sparse_rejects _ _ _ _ fp F); cbn; lia.
Qed.

(** C9 (rank guard). The forward projector raises the error of its first
    statement exactly when [voxel_values] does not have rank 2, whatever
    the other arguments are. *)
Theorem rank_guard voxel_values idx angle pp :
  forward_project_voxels_one_view voxel_values idx angle pp = Raise rank_error
  <-> length (shape voxel_values) <> 2%nat.
Proof.
  unfold forward_project_voxels_one_view.
  destruct (shape voxel_values) as [|n [|s [|x l]]]; cbn [length];
    try (split; [intros _; lia | reflexivity]).
  split; [|lia]. intros H. exfalso. revert H.
  destruct (sinogram_shape pp) as [[nv nr] nc].
  destruct (compute_sparse_Bij_Cij_single_view idx angle pp 1) as [[[[Bv Bc] Cv] Cr]|e] eqn:K;
    cbn [bind].
  - destruct (bdim (ncols Bv) s); [|intros E; inversion E].
    destruct (_ && _); intros E; inversion E.
  - apply compute_sparse_error in K as [-> | ->]; intros E; inversion E.
Qed.

(** C10 (linearity; an all-zero voxel array gives an all-zero view), run on
    the code. For one voxel with two slices, two detector rows and the
    all-zero voxel array of shape (1, 2), the forward projector returns no
    detector view: the kernel builder it calls rejects the two pairs. *)
Theorem forward_rejects_two_slices :
  forward_project_voxels_one_view zero_voxel_values_two_slices [0%Z] 0 two_slices
  = Raise incompatible_shapes.
Proof.
  unfold forward_project_voxels_one_view.
  cbn [shape zero_voxel_values_two_slices sinogram_shape two_slices].
  fold two_slices.
  destruct footprints_two_slices as [fp F].
  rewrite (compute_sparse_rejects _ _ _ _ fp F) by (cbn; lia).
  reflexivity.
Qed.

(** * Further properties of the code *)

(** ** The (voxel, slice) pairs and the geometry of one voxel *)

(** X1 (order of the (voxel, slice) pairs). The three index arrays built
    on lines 256-264 have one entry per pair, N * num_slices in all, and
    the pair at position n * num_slices + s is voxel n of the call (its row
    and column as unravel_index gives them) in slice s: the slice index
    runs fastest. *)
Theorem pairs_are_listed_slice_fastest idx nr nc ns i j k :
  expand_ijk idx nr nc ns = (i, j, k) ->
  length i = (length idx * ns)%nat /\ length j = (length idx * ns)%nat
  /\ length k = (length idx * ns)%nat
  /\ forall n s, (n < length idx)%nat -> (s < ns)%nat ->
       nth (n * ns + s) i 0%Z = nth n (fst (unravel_index idx (nr, nc))) 0%Z
       /\ nth (n * ns + s) j 0%Z = nth n (snd (unravel_index idx (nr, nc))) 0%Z
       /\ nth (n * ns + s) k 0%Z = Z.of_nat s.
Proof.
  intros E. destruct (length_expand_ijk _ _ _ _ _ _ _ E) as (Hi & Hj & Hk).
  repeat (split; [assumption|]).
  intros n s Hn Hs. exact (expand_ijk_order _ _ _ _ _ _ _ n s E Hn Hs).
Qed.

Lemma pairs_are_listed_slice_fastest_witness :
  expand_ijk [3; 4]%Z 2 3 2 = ([1; 1; 1; 1], [0; 0; 1; 1], [0; 1; 0; 1])%Z
  /\ nth (1 * 2 + 0) [0; 0; 1; 1]%Z 0%Z = nth 1 (snd (unravel_index [3; 4]%Z (2, 3)%nat)) 0%Z.
Proof.
  split; [reflexivity|].
  exact (proj1 (proj2 (proj2 (proj2 (proj2
    (pairs_are_listed_slice_fastest [3; 4]%Z 2 3 2 _ _ _ eq_refl))) 1%nat 0%nat
    ltac:(cbn; lia) ltac:(lia)))).
Defined.

Lemma unravel_in_range idx nr nc n :
  (n < length idx)%nat ->
  (0 <= nth n idx 0 < Z.of_nat (nr * nc))%Z ->
  let r := nth n (fst (unravel_index idx (nr, nc))) 0%Z in
  let c := nth n (snd (unravel_index idx (nr, nc))) 0%Z in
  (0 <= r < Z.of_nat nr)%Z /\ (0 <= c < Z.of_nat nc)%Z
  /\ (r * Z.of_nat nc + c)%Z = nth n idx 0%Z.
Proof.
  intros Hn Hx. unfold unravel_index. cbn [fst snd].
  set (total := Z.of_nat (nr * nc)) in *.
  set (clip := fun i : Z => Z.min (Z.max i (- total)) (total - 1)).
  assert (Hc : nth n (map clip idx) 0%Z = nth n idx 0%Z).
  { rewrite (nth_indep _ 0%Z (clip 0%Z)) by (rewrite length_map; exact Hn).
    rewrite map_nth. unfold clip. lia. }
  assert (Hnc : (0 < Z.of_nat nc)%Z) by (subst total; nia).
  assert (Ht : total = (Z.of_nat nr * Z.of_nat nc)%Z) by (subst total; lia).
  rewrite (nth_indep _ 0%Z ((fun i => (i mod total / Z.of_nat nc)%Z) 0%Z))
    by (rewrite !length_map; exact Hn).
  rewrite (map_nth (fun i => (i mod total / Z.of_nat nc)%Z)).
  rewrite (nth_indep (map (fun i => (i mod Z.of_nat nc)%Z) _) 0%Z
                     ((fun i => (i mod Z.of_nat nc)%Z) 0%Z))
    by (rewrite !length_map; exact Hn).
  rewrite (map_nth (fun i => (i mod Z.of_nat nc)%Z)).
  fold clip. rewrite Hc.
  set (x := nth n idx 0%Z) in *.
  rewrite (Z.mod_small x total) by lia.
  pose proof (Z.mod_pos_bound x (Z.of_nat nc) Hnc).
  pose proof (Z.div_mod x (Z.of_nat nc) ltac:(lia)).
  assert (0 <= x / Z.of_nat nc)%Z by (apply Z.div_pos; lia).
  assert (x / Z.of_nat nc < Z.of_nat nr)%Z by (apply Z.div_lt_upper_bound; lia).
  repeat split; lia.
Qed.

(** X2 (flat voxel index round trip). For a flat index that lies in the
    2D recon plane, the row i and column j of each of its pairs are inside
    the plane, the slice k is inside the slice range, and
    i * num_recon_cols + j gives the flat index back. *)
Theorem voxel_index_round_trip idx nr nc ns i j k n s :
  expand_ijk idx nr nc ns = (i, j, k) ->
  (n < length idx)%nat -> (s < ns)%nat ->
  (0 <= nth n idx 0 < Z.of_nat (nr * nc))%Z ->
  let i_ := nth (n * ns + s) i 0%Z in
  let j_ := nth (n * ns + s) j 0%Z in
  let k_ := nth (n * ns + s) k 0%Z in
  (0 <= i_ < Z.of_nat nr)%Z /\ (0 <= j_ < Z.of_nat nc)%Z /\ (0 <= k_ < Z.of_nat ns)%Z
  /\ (i_ * Z.of_nat nc + j_)%Z = nth n idx 0%Z /\ k_ = Z.of_nat s.
Proof.
  intros E Hn Hs Hx.
  destruct (expand_ijk_order _ _ _ _ _ _ _ n s E Hn Hs) as (Hi & Hj & Hk).
  destruct (unravel_in_range idx nr nc n Hn Hx) as (Br & Bc & Hrc).
  cbn zeta. rewrite Hi, Hj, Hk. repeat split; try lia.
Qed.

Lemma voxel_index_round_trip_witness :
  (0 <= nth 1 [3; 4] 0 < Z.of_nat (2 * 3))%Z
  /\ (nth (1 * 2 + 1) [1; 1; 1; 1] 0 * Z.of_nat 3 + nth (1 * 2 + 1) [0; 0; 1; 1] 0 = 4)%Z.
Proof.
  split; [cbn; lia|].
  exact (proj1 (proj2 (proj2 (proj2
    (voxel_index_round_trip [3; 4]%Z 2 3 2 _ _ _ 1 1 eq_refl
       ltac:(cbn; lia) ltac:(lia) ltac:(cbn; lia)))))).
Defined.

Lemma sin2_cos2_mult t : sin t * sin t + cos t * cos t = 1.
Proof. pose proof (sin2_cos2 t) as H. unfold Rsqr in H. exact H. Qed.

(** X3 (the view angle rotates about the z axis). Whatever the angle,
    [recon_ijk_to_xyz] keeps the distance of the voxel to the rotation
    axis, x^2 + y^2, and its height z; at angle 0 the coordinates are
    pitch * (index - centre). *)
Theorem view_rotation_keeps_distance_to_axis i j k dp nr nc ns off angle :
  let '(x, y, z) := recon_ijk_to_xyz i j k dp nr nc ns off angle in
  let '(x0, y0, z0) := recon_ijk_to_xyz i j k dp nr nc ns off 0 in
  x * x + y * y = x0 * x0 + y0 * y0 /\ z = z0
  /\ x0 = dp * (IZR i - (nat2R nr - 1) / 2) /\ y0 = dp * (IZR j - (nat2R nc - 1) / 2).
Proof.
  unfold recon_ijk_to_xyz. rewrite cos_0, sin_0.
  pose proof (sin2_cos2_mult angle) as H.
  set (a := dp * (IZR i - (nat2R nr - 1) / 2)).
  set (b := dp * (IZR j - (nat2R nc - 1) / 2)).
  repeat split; try lra.
  replace ((cos angle * a - sin angle * b) * (cos angle * a - sin angle * b)
           + (sin angle * a + cos angle * b) * (sin angle * a + cos angle * b))
    with ((sin angle * sin angle + cos angle * cos angle) * (a * a + b * b)) by ring.
  rewrite H. ring.
Qed.


Lemma IZR_half (i : Z) (n : nat) : (2 * i = Z.of_nat n - 1)%Z -> IZR i = (nat2R n - 1) / 2.
Proof.
  intros H. unfold nat2R.
  assert (E : IZR (2 * i) = IZR (Z.of_nat n - 1)) by (f_equal; exact H).
  rewrite mult_IZR, minus_IZR in E. lra.
Qed.

(** X5 (the iso-centre projects to the detector centre). A voxel at the
    centre of the recon grid, with no slice offset, is at the origin for
    every view angle; its magnification is the nominal one and its detector
    indices are the detector centre shifted by the two detector offsets,
    whatever the detector rotation and the pitches. *)
Theorem centre_voxel_projects_to_detector_centre
        i j k nr nc ns angle (g : geometry_params) num_det_rows num_det_channels :
  (2 * i = Z.of_nat nr - 1)%Z -> (2 * j = Z.of_nat nc - 1)%Z -> (2 * k = Z.of_nat ns - 1)%Z ->
  source_detector_dist g <> 0 -> magnification g <> 0 -> recon_slice_offset g = 0 ->
  exists x y z u v pixel_mag,
    recon_ijk_to_xyz i j k (delta_pixel_recon g) nr nc ns (recon_slice_offset g) angle = (x, y, z)
    /\ (x, y, z) = (0, 0, 0)
    /\ geometry_xyz_to_uv_mag x y z (source_detector_dist g) (magnification g)
       = Ok (u, v, pixel_mag)
    /\ pixel_mag = magnification g
    /\ detector_uv_to_mn u v (det_rotation g) (delta_det_channel g) (delta_det_row g)
                         (det_channel_offset g) (det_row_offset g)
                         num_det_rows num_det_channels
       = ((nat2R num_det_rows - 1) / 2 + det_row_offset g,
          (nat2R num_det_channels - 1) / 2 + det_channel_offset g).
Proof.
  intros Hi Hj Hk Hs Hm Ho.
  exists 0, 0, 0, 0, 0, (magnification g).
  split; [|split; [reflexivity|split; [|split; [reflexivity|]]]].
  - unfold recon_ijk_to_xyz.
    rewrite (IZR_half i nr Hi), (IZR_half j nc Hj), (IZR_half k ns Hk), Ho.
    apply (f_equal2 pair); [apply (f_equal2 pair)|]; ring.
  - rewrite geometry_on_axis by assumption. rewrite Rmult_0_r. reflexivity.
  - apply detector_centre.
Qed.

Lemma centre_voxel_projects_to_detector_centre_witness :
  exists x y z u v pixel_mag,
    recon_ijk_to_xyz 1 1 1 1 3 3 3 0 (PI / 4) = (x, y, z)
    /\ (x, y, z) = (0, 0, 0)
    /\ geometry_xyz_to_uv_mag x y z 2 2 = Ok (u, v, pixel_mag)
    /\ pixel_mag = 2
    /\ detector_uv_to_mn u v 0 1 1 0 0 3 5 = ((nat2R 3 - 1) / 2 + 0, (nat2R 5 - 1) / 2 + 0).
Proof.
  exact (centre_voxel_projects_to_detector_centre 1 1 1 3 3 3 (PI / 4) unit_geometry 3 5
           eq_refl eq_refl eq_refl
           ltac:(cbn; lra) ltac:(cbn; lra) eq_refl).
Defined.

Lemma cos_alpha_range t :
  / sqrt 2 <= Rmax (Rabs (cos t)) (Rabs (sin t)) <= 1.
Proof.
  pose proof (sin2_cos2_mult t) as H.
  pose proof (Rabs_pos (cos t)) as Pc. pose proof (Rabs_pos (sin t)) as Ps.
  assert (Sc : Rabs (cos t) * Rabs (cos t) = cos t * cos t)
    by (rewrite <- Rabs_mult; apply Rabs_pos_eq; nra).
  assert (Ss : Rabs (sin t) * Rabs (sin t) = sin t * sin t)
    by (rewrite <- Rabs_mult; apply Rabs_pos_eq; nra).
  pose proof (Rmax_l (Rabs (cos t)) (Rabs (sin t))) as Ml.
  pose proof (Rmax_r (Rabs (cos t)) (Rabs (sin t))) as Mr.
  set (M := Rmax (Rabs (cos t)) (Rabs (sin t))) in *.
  assert (Hs : 0 < sqrt 2) by (apply sqrt_lt_R0; lra).
  pose proof (sqrt_def 2 ltac:(lra)) as Hd.
  assert (Hi : / sqrt 2 * / sqrt 2 = / 2).
  { rewrite <- Rinv_mult. rewrite Hd. reflexivity. }
  assert (Hp : 0 < / sqrt 2) by (apply Rinv_0_lt_compat; exact Hs).
  split.
  - destruct (Rle_lt_dec (/ sqrt 2) M) as [|Hlt]; [assumption|]. exfalso.
    assert (M * M < / sqrt 2 * / sqrt 2) by nra.
    assert (Rabs (cos t) * Rabs (cos t) <= M * M) by nra.
    assert (Rabs (sin t) * Rabs (sin t) <= M * M) by nra.
    lra.
  - unfold M. apply Rmax_lub; apply Rabs_le.
    + pose proof (COS_bound t); lra.
    + pose proof (SIN_bound t); lra.
Qed.

(** X7 (range of cos_alpha). Every entry of cos_alpha_col and
    cos_alpha_row (lines 297-299) lies between 1 / sqrt 2 and 1, so the
    divisions by cos_alpha_col on lines 325 and 348 never divide by zero. *)
Theorem footprint_cosines_are_bounded idx angle pp fp :
  voxel_footprints idx angle pp = Ok fp ->
  Forall (fun c => / sqrt 2 <= c <= 1) (cos_alpha_col fp)
  /\ Forall (fun c => / sqrt 2 <= c <= 1) (cos_alpha_row fp).
Proof.
  unfold voxel_footprints.
  destruct (sinogram_shape pp) as [[nv nr] nc].
  destruct (recon_shape pp) as [[rr rc] rs].
  destruct (expand_ijk idx rr rc rs) as [[i j] k].
  destruct (mapM _ _) as [uvm|e]; cbn [bind]; [|discriminate].
  intros E; inversion E; subst; clear E. cbn [cos_alpha_col cos_alpha_row].
  split; apply Forall_forall; intros c Hc; apply in_map_iff in Hc as (t & <- & _);
    apply cos_alpha_range.
Qed.

Lemma footprint_cosines_are_bounded_witness :
  Forall (fun c => / sqrt 2 <= c <= 1) [Rmax (Rabs (cos (PI / 4))) (Rabs (sin (PI / 4)))]
  /\ Forall (fun c => / sqrt 2 <= c <= 1) [1].
Proof.
  exact (footprint_cosines_are_bounded [0%Z] (PI / 4) one_voxel _
           (footprints_centred_voxel (PI / 4) unit_geometry 1 1 1
              ltac:(cbn; lra) ltac:(cbn; lra) eq_refl)).
Defined.





(** X6 (the detector map can be inverted). With non-zero detector
    pitches, the position (u, v) is recovered from the fractional indices
    (m, n) of [detector_uv_to_mn] by removing centre and offset, scaling by
    the pitch and rotating back by det_rotation. *)
Theorem detector_indices_determine_position
        u v rot ddc ddr offc offr num_det_rows num_det_channels :
  ddc <> 0 -> ddr <> 0 ->
  let '(m, n) := detector_uv_to_mn u v rot ddc ddr offc offr num_det_rows num_det_channels in
  let u_tilde := (n - (nat2R num_det_channels - 1) / 2 - offc) * ddc in
  let v_tilde := (m - (nat2R num_det_rows - 1) / 2 - offr) * ddr in
  u = cos rot * u_tilde - sin rot * v_tilde
  /\ v = sin rot * u_tilde + cos rot * v_tilde.
Proof.
  intros Hc Hr. unfold detector_uv_to_mn. cbn zeta.
  pose proof (sin2_cos2_mult rot) as H.
  set (a := (nat2R num_det_channels - 1) / 2). set (b := (nat2R num_det_rows - 1) / 2).
  replace (((cos rot * u + sin rot * v) / ddc + a + offc - a - offc) * ddc)
    with (cos rot * u + sin rot * v) by (field; exact Hc).
  replace (((- sin rot * u + cos rot * v) / ddr + b + offr - b - offr) * ddr)
    with (- sin rot * u + cos rot * v) by (field; exact Hr).
  split.
  - replace (cos rot * (cos rot * u + sin rot * v) - sin rot * (- sin rot * u + cos rot * v))
      with ((sin rot * sin rot + cos rot * cos rot) * u) by ring.
    rewrite H. ring.
  - replace (sin rot * (cos rot * u + sin rot * v) + cos rot * (- sin rot * u + cos rot * v))
      with ((sin rot * sin rot + cos rot * cos rot) * v) by ring.
    rewrite H. ring.
Qed.

Lemma detector_indices_determine_position_witness :
  let '(m, n) := detector_uv_to_mn 3 5 (PI / 4) 1 2 0 0 1 1 in
  let u_tilde := (n - (nat2R 1 - 1) / 2 - 0) * 1 in
  let v_tilde := (m - (nat2R 1 - 1) / 2 - 0) * 2 in
  3 = cos (PI / 4) * u_tilde - sin (PI / 4) * v_tilde
  /\ 5 = sin (PI / 4) * u_tilde + cos (PI / 4) * v_tilde.
Proof.
  exact (detector_indices_determine_position 3 5 (PI / 4) 1 2 0 0 1 1
           ltac:(lra) ltac:(lra)).
Defined.

(** ** The kernel builder *)









Lemma get_row_vec (v : list R) t : get (row_vec v) 0 t = nth t v 0.
Proof. reflexivity. Qed.

Lemma get_col_vec (v : list R) k : (k < length v)%nat -> get (col_vec v) k 0 = nth k v 0.
Proof.
  intros Hk. unfold get, col_vec; cbn [rows].
  rewrite (nth_indep _ [] [0]) by (rewrite length_map; exact Hk).
  rewrite (map_nth (fun x : R => [x])). reflexivity.
Qed.

Lemma nth_map_lt {A} (g : A -> R) l n d :
  (n < length l)%nat -> nth n (map g l) 0 = g (nth n l d).
Proof.
  intros Hn. rewrite (nth_indep _ 0 (g d)) by (rewrite length_map; exact Hn).
  apply map_nth.
Qed.

Lemma bdim_some_wide a b c : bdim a b = Some c -> (1 < b)%nat -> a = 1%nat \/ a = b.
Proof.
  unfold bdim.
  destruct (Nat.eqb_spec a b); [auto|].
  destruct (Nat.eqb_spec a 1); [auto|].
  destruct (Nat.eqb_spec b 1); [lia | discriminate].
Qed.

Lemma bidx_aligned n m t : n = 1%nat \/ n = m -> (t < m)%nat -> (bidx n t < n)%nat.
Proof.
  intros [->| ->] Ht; [cbn; lia | rewrite bidx_lt; lia].
Qed.

(** The entry (k, t) of one direction of a returned kernel. The rank-1
    arrays tmp1, tmp2 and cos_alpha are aligned with the last axis, so the
    entry reads them at the column index t (at 0 when there is one pair). *)
Lemma sparse_entries_entry frac W ca dp dd nd p value index :
  (1 <= p)%nat -> length W = length frac -> length ca = length frac ->
  sparse_entries frac W ca dp dd nd p = Ok (value, index) ->
  forall k t, (k < length frac)%nat -> (t < 2 * p + 1)%nat ->
    let c := (round (nth k frac 0%R) - Z.of_nat p + Z.of_nat t)%Z in
    let tau := bidx (length frac) t in
    (tau < length frac)%nat
    /\ lookup index k t = Some c
    /\ lookup value k t
       = Some ((dp / nth tau ca 0)
               * (Rmax ((nth tau W 0 + 1) / 2
                        - Rmax (Rabs ((nth tau W 0 - 1) / 2))
                               (Rabs (IZR c - nth k frac 0))) 0 / dd)
               * b2r (0 <=? c)%Z * b2r (c <? Z.of_nat nd)%Z).
Proof.
  intros Hp HW Hca Hs k t Hk Ht c tau.
  pose proof (sparse_entries_inv _ _ _ _ _ _ _ _ _ Hs) as Hidx.
  assert (Hc : lookup index k t = Some c).
  { rewrite Hidx, candidate_total by (rewrite ?length_map; assumption).
    unfold c. rewrite (nth_indep _ 0%Z (round 0)) by (rewrite length_map; exact Hk).
    rewrite (map_nth round). reflexivity. }
  revert Hs. unfold sparse_entries. rewrite <- Hidx.
  destruct (broadcast2 _ index _) as [delta|] eqn:E1; cbn [bind]; [|discriminate].
  destruct (broadcast2 Rmax _ delta) as [inner|] eqn:E2; cbn [bind]; [|discriminate].
  destruct (broadcast2 Rminus _ inner) as [diff|] eqn:E3; cbn [bind]; [|discriminate].
  destruct (broadcast2 Rmult _ _) as [v0|] eqn:E4; cbn [bind]; [|discriminate].
  destruct (broadcast2 _ v0 _) as [v1|] eqn:E5; cbn [bind]; [|discriminate].
  destruct (broadcast2 _ v1 _) as [v2|] eqn:E6; cbn [bind]; [|discriminate].
  intros E; inversion E; subst v2; clear E.
  assert (Hri : nrows index = length frac)
    by (rewrite Hidx; autorewrite with shapes; reflexivity).
  assert (Hci : ncols index = (2 * p + 1)%nat) by (rewrite Hidx; reflexivity).
  pose proof (broadcast2_shape _ _ _ _ E1) as [R1 C1].
  pose proof (broadcast2_shape _ _ _ _ E2) as [R2 C2].
  pose proof (broadcast2_shape _ _ _ _ E3) as [R3 C3].
  pose proof (broadcast2_shape _ _ _ _ E4) as [R4 C4].
  pose proof (broadcast2_shape _ _ _ _ E5) as [R5 C5].
  pose proof (broadcast2_shape _ _ _ _ E6) as [R6 C6].
  autorewrite with shapes in R1, C1, R2, C2, R3, C3, R4, C4, R5, C5, R6, C6.
  rewrite Hri, bdim_same in R1.
  assert (R1' : nrows delta = length frac) by congruence.
  rewrite Hci, bdim_1_r in C1.
  assert (C1' : ncols delta = (2 * p + 1)%nat) by congruence.
  apply bdim_1_l in R2, R3, R4.
  rewrite C1', HW in C2.
  assert (HN : length frac = 1%nat \/ length frac = (2 * p + 1)%nat)
    by (eapply bdim_some_wide; [exact C2 | lia]).
  pose proof (bidx_aligned _ _ t HN Ht) as Htau. fold tau in Htau.
  apply bdim_wide_r in C2; [|lia].
  rewrite C2 in C3. apply bdim_wide_r in C3; [|lia].
  rewrite C3 in C4. apply bdim_wide_r in C4; [|lia].
  rewrite C4, Hci in C5. apply bdim_wide_r in C5; [|lia].
  rewrite C5, Hci in C6. apply bdim_wide_r in C6; [|lia].
  rewrite R1' in R2. rewrite R2 in R3. rewrite R3 in R4.
  rewrite R4, Hri, bdim_same in R5.
  assert (R5' : nrows v1 = length frac) by congruence.
  rewrite R5', Hri, bdim_same in R6.
  assert (R6' : nrows value = length frac) by congruence.
  split; [exact Htau|]. split; [exact Hc|].
  pose proof (lookup_broadcast2 _ _ _ _ k t E1 ltac:(lia) ltac:(lia)) as G1.
  pose proof (lookup_broadcast2 _ _ _ _ k t E2 ltac:(lia) ltac:(lia)) as G2.
  pose proof (lookup_broadcast2 _ _ _ _ k t E3 ltac:(lia) ltac:(lia)) as G3.
  pose proof (lookup_broadcast2 _ _ _ _ k t E4 ltac:(lia) ltac:(lia)) as G4.
  pose proof (lookup_broadcast2 _ _ _ _ k t E5 ltac:(lia) ltac:(lia)) as G5.
  pose proof (lookup_broadcast2 _ _ _ _ k t E6 ltac:(lia) ltac:(lia)) as G6.
  autorewrite with shapes in G1, G2, G3, G4, G5, G6.
  rewrite HW in G2, G3. rewrite Hca in G4. fold tau in G2, G3, G4.
  change (bidx 1 k) with 0%nat in G2, G3, G4.
  change (bidx 1 t) with 0%nat in G1.
  rewrite get_row_vec in G2, G3, G4.
  rewrite Hri, Hci, (bidx_lt _ k Hk), (bidx_lt _ t Ht), (get_col_vec _ _ Hk),
    (lookup_get _ _ _ _ Hc) in G1.
  rewrite R1', C1', (bidx_lt _ k Hk), (bidx_lt _ t Ht), (lookup_get _ _ _ _ G1) in G2.
  rewrite R2, C2, (bidx_lt _ k Hk), (bidx_lt _ t Ht), (lookup_get _ _ _ _ G2) in G3.
  assert (GL : get (map2d (fun l => l / dd) (map2d (fun x => Rmax x 0) diff)) k t
               = Rmax (nth tau (map (fun w => (w + 1) / 2) W) 0
                       - Rmax (nth tau (map Rabs (map (fun w => (w - 1) / 2) W)) 0)
                              (Rabs (IZR c - nth k frac 0))) 0 / dd).
  { apply lookup_get. rewrite !lookup_map2d, G3. reflexivity. }
  rewrite R3, C3, (bidx_lt _ k Hk), (bidx_lt _ t Ht), GL in G4.
  assert (M1 : get (map2d (fun c0 : Z => (0 <=? c0)%Z) index) k t = (0 <=? c)%Z).
  { apply lookup_get. rewrite lookup_map2d, Hc. reflexivity. }
  assert (M2 : get (map2d (fun c0 : Z => (c0 <? Z.of_nat nd)%Z) index) k t
               = (c <? Z.of_nat nd)%Z).
  { apply lookup_get. rewrite lookup_map2d, Hc. reflexivity. }
  rewrite R4, C4, Hri, Hci, (bidx_lt _ k Hk), (bidx_lt _ t Ht),
    (lookup_get _ _ _ _ G4), M1 in G5.
  rewrite R5', C5, Hri, Hci, (bidx_lt _ k Hk), (bidx_lt _ t Ht),
    (lookup_get _ _ _ _ G5), M2 in G6.
  rewrite G6. f_equal.
  rewrite (nth_map_lt (fun c0 => dp / c0) ca tau 0) by lia.
  rewrite (nth_map_lt (fun w => (w + 1) / 2) W tau 0) by lia.
  rewrite (nth_map_lt Rabs _ tau 0) by (rewrite length_map; lia).
  rewrite (nth_map_lt (fun w => (w - 1) / 2) W tau 0) by lia.
  reflexivity.
Qed.

Section Broadcast2Inv.

Context {A B C : Type} `{Default A} `{Default B}.
Variable f : A -> B -> C.

Lemma lookup_broadcast2_inv a b c k t x :
  broadcast2 f a b = Ok c -> lookup c k t = Some x ->
  (k < nrows c)%nat /\ (t < ncols c)%nat.
Proof.
  unfold broadcast2.
  destruct (bdim (nrows a) (nrows b)) as [r|]; [|discriminate].
  destruct (bdim (ncols a) (ncols b)) as [w|]; [|discriminate].
  intros E; inversion E; subst; clear E. unfold nrows, lookup; cbn [rows ncols].
  rewrite length_map, length_seq, nth_error_map, nth_error_seq.
  destruct (Nat.ltb_spec k r); cbn [option_map]; [|discriminate].
  rewrite nth_error_map, nth_error_seq.
  destruct (Nat.ltb_spec t w); cbn [option_map]; [|discriminate].
  intros _. split; assumption.
Qed.

End Broadcast2Inv.

Lemma sparse_entries_lookup_inv frac W ca dp dd nd p value index k t x :
  sparse_entries frac W ca dp dd nd p = Ok (value, index) ->
  lookup value k t = Some x -> (k < nrows value)%nat /\ (t < ncols value)%nat.
Proof.
  unfold sparse_entries.
  destruct (broadcast2 _ _ (col_vec frac)) as [delta|]; cbn [bind]; [|discriminate].
  destruct (broadcast2 Rmax _ delta) as [inner|]; cbn [bind]; [|discriminate].
  destruct (broadcast2 Rminus _ inner) as [diff|]; cbn [bind]; [|discriminate].
  destruct (broadcast2 Rmult _ _) as [v0|]; cbn [bind]; [|discriminate].
  destruct (broadcast2 _ v0 _) as [v1|]; cbn [bind]; [|discriminate].
  destruct (broadcast2 _ v1 _) as [v2|] eqn:E6; cbn [bind]; [|discriminate].
  intros E; inversion E; subst v2; clear E. intros Hx.
  exact (lookup_broadcast2_inv _ _ _ _ _ _ _ E6 Hx).
Qed.

Lemma footprints_cos_alpha_col_pos idx angle pp fp n :
  voxel_footprints idx angle pp = Ok fp ->
  (n < length (cos_alpha_col fp))%nat -> 0 < nth n (cos_alpha_col fp) 0.
Proof.
  unfold voxel_footprints.
  destruct (sinogram_shape pp) as [[nv nr] nc].
  destruct (recon_shape pp) as [[rr rc] rs].
  destruct (expand_ijk idx rr rc rs) as [[i j] k].
  destruct (mapM _ _) as [uvm|e]; cbn [bind]; [|discriminate].
  intros E; inversion E; subst; clear E. cbn [cos_alpha_col]. intros Hn.
  assert (Hin : In (nth n (map (fun c => Rmax (Rabs (cos (angle - c))) (Rabs (sin (angle - c))))
                    (map (fun u => arctan2 u (source_detector_dist (geometry pp)))
                         (map (fun '(u, _, _) => u) uvm))) 0)
                   (map (fun c => Rmax (Rabs (cos (angle - c))) (Rabs (sin (angle - c))))
                    (map (fun u => arctan2 u (source_detector_dist (geometry pp)))
                         (map (fun '(u, _, _) => u) uvm))))
    by (apply nth_In; exact Hn).
  apply in_map_iff in Hin as (c & <- & _).
  pose proof (cos_alpha_range (angle - c)) as [Hlo _].
  assert (0 < / sqrt 2) by (apply Rinv_0_lt_compat, sqrt_lt_R0; lra).
  lra.
Qed.

Lemma sparse_entries_nonneg frac W ca dp dd nd p value index :
  (1 <= p)%nat -> length W = length frac -> length ca = length frac ->
  0 <= dp -> 0 < dd -> (forall n, (n < length ca)%nat -> 0 < nth n ca 0) ->
  sparse_entries frac W ca dp dd nd p = Ok (value, index) ->
  forall k t w, lookup value k t = Some w -> 0 <= w.
Proof.
  intros Hp HW Hca Hdp Hdd Hpos Hs k t w Hw.
  destruct (sparse_entries_lookup_inv _ _ _ _ _ _ _ _ _ _ _ _ Hs Hw) as [Hk Ht].
  destruct (sparse_entries_shape _ _ _ _ _ _ _ _ _ Hp Hs) as [Sv _].
  unfold shape2 in Sv. inversion Sv as [[Sr Sc]]. rewrite Sr in Hk. rewrite Sc in Ht.
  destruct (sparse_entries_entry _ _ _ _ _ _ _ _ _ Hp HW Hca Hs k t Hk Ht)
    as (Htau & _ & Hv).
  rewrite Hv in Hw. inversion Hw; subst w; clear Hw.
  set (tau := bidx (length frac) t) in *.
  pose proof (Hpos tau ltac:(lia)) as Hc.
  assert (0 <= dp / nth tau ca 0).
  { apply Rmult_le_pos; [exact Hdp | left; apply Rinv_0_lt_compat; exact Hc]. }
  assert (0 <= Rmax ((nth tau W 0 + 1) / 2
                     - Rmax (Rabs ((nth tau W 0 - 1) / 2))
                         (Rabs (IZR (round (nth k frac 0) - Z.of_nat p + Z.of_nat t)
                                - nth k frac 0))) 0 / dd).
  { apply Rmult_le_pos; [apply Rmax_r | left; apply Rinv_0_lt_compat; exact Hdd]. }
  assert (Hb : forall b, 0 <= b2r b) by (intros [|]; cbn; lra).
  apply Rmult_le_pos; [apply Rmult_le_pos; [apply Rmult_le_pos; assumption|]|]; apply Hb.
Qed.

Lemma overlap_eq w m c :
  Rmax ((w + 1) / 2 - Rmax (Rabs ((w - 1) / 2)) (Rabs (IZR c - m))) 0 = Spec.overlap w m c.
Proof.
  unfold Spec.overlap. do 3 f_equal.
  unfold Rdiv. rewrite Rabs_mult. f_equal. apply Rabs_pos_eq. lra.
Qed.

(** X10 (shapes, and one index array for both directions). When the
    builder returns with a radius of at least 1, its four arrays have shape
    (N * num_slices, 2p + 1), and Bij_channel and Cij_row are the same
    array (both are built from round(mp), lines 308 and 331). *)
Theorem returned_kernel_shapes_and_shared_indices idx angle pp p Bv Bc Cv Cr :
  (1 <= p)%nat ->
  compute_sparse_Bij_Cij_single_view idx angle pp p = Ok (Bv, Bc, Cv, Cr) ->
  let shp := ((length idx * snd (recon_shape pp))%nat, (2 * p + 1)%nat) in
  shape2 Bv = shp /\ shape2 Bc = shp /\ shape2 Cv = shp /\ shape2 Cr = shp /\ Bc = Cr.
Proof.
  intros Hp H.
  destruct (compute_sparse_returned _ _ _ _ _ _ _ _ Hp H) as (S1 & S2 & S3 & S4 & _).
  repeat (split; [assumption|]).
  apply compute_sparse_inv in H as (fp & _ & B & C).
  apply sparse_entries_inv in B, C. congruence.
Qed.

Lemma returned_kernel_shapes_and_shared_indices_witness :
  shape2 (mkArray2 3 [[0; 1; 0]]) = (1 * 1, 2 * 1 + 1)%nat
  /\ shape2 (mkArray2 3 [[-1; 0; 1]]%Z) = (1 * 1, 2 * 1 + 1)%nat
  /\ shape2 (mkArray2 3 [[0; 1; 0]]) = (1 * 1, 2 * 1 + 1)%nat
  /\ shape2 (mkArray2 3 [[-1; 0; 1]]%Z) = (1 * 1, 2 * 1 + 1)%nat
  /\ mkArray2 3 [[-1; 0; 1]]%Z = mkArray2 3 [[-1; 0; 1]]%Z.
Proof.
  exact (returned_kernel_shapes_and_shared_indices [0%Z] 0 one_voxel 1 _ _ _ _
           (le_n 1) kernel_one_voxel).
Defined.

(** X11 (the entries of a returned kernel). For a radius of at least 1,
    entry (k, t) of both index arrays is round(mp[k]) - p + t, and entry
    (k, t) of Bij_value (Cij_value) is
    (delta_pixel_recon / cos_alpha) * (L / pitch), masked by the two bound
    tests on the index, where L is the overlap of the unit cell at that
    index with the footprint of width W_col (W_row) centred at mp[k]. The
    width and cos_alpha_col are read at position t, or 0 when there is a
    single pair, since the rank-1 arrays are aligned with the last axis. *)
Theorem returned_kernel_entries idx angle pp p Bv Bc Cv Cr :
  (1 <= p)%nat ->
  compute_sparse_Bij_Cij_single_view idx angle pp p = Ok (Bv, Bc, Cv, Cr) ->
  exists fp,
    voxel_footprints idx angle pp = Ok fp
    /\ forall k t,
        (k < length idx * snd (recon_shape pp))%nat -> (t < 2 * p + 1)%nat ->
        let g := geometry pp in
        let m := nth k (mp fp) 0 in
        let c := (round m - Z.of_nat p + Z.of_nat t)%Z in
        let tau := bidx (length idx * snd (recon_shape pp)) t in
        let cos_alpha := nth tau (cos_alpha_col fp) 0 in
        lookup Bc k t = Some c
        /\ lookup Cr k t = Some c
        /\ lookup Bv k t
           = Some (Spec.weight (delta_pixel_recon g) cos_alpha
                               (Spec.overlap (nth tau (W_col fp) 0) m c) (delta_det_channel g)
                   * b2r (0 <=? c)%Z * b2r (c <? Z.of_nat (snd (sinogram_shape pp)))%Z)
        /\ lookup Cv k t
           = Some (Spec.weight (delta_pixel_recon g) cos_alpha
                               (Spec.overlap (nth tau (W_row fp) 0) m c) (delta_det_row g)
                   * b2r (0 <=? c)%Z
                   * b2r (c <? Z.of_nat (snd (fst (sinogram_shape pp))))%Z).
Proof.
  intros Hp H. apply compute_sparse_inv in H as (fp & F & B & C).
  exists fp. split; [exact F|].
  pose proof (footprints_length _ _ _ _ F) as (Hm & _ & Hc & _ & Hwc & Hwr).
  cbn zeta in Hm, Hc, Hwc, Hwr.
  intros k t Hk Ht. cbn zeta. rewrite <- Hm in Hk |- *.
  assert (Lc : length (cos_alpha_col fp) = length (mp fp)) by congruence.
  assert (Lwc : length (W_col fp) = length (mp fp)) by congruence.
  assert (Lwr : length (W_row fp) = length (mp fp)) by congruence.
  destruct (sparse_entries_entry _ _ _ _ _ _ _ _ _ Hp Lwc Lc B k t Hk Ht) as (_ & IB & VB).
  destruct (sparse_entries_entry _ _ _ _ _ _ _ _ _ Hp Lwr Lc C k t Hk Ht) as (_ & IC & VC).
  rewrite overlap_eq in VB, VC.
  repeat split; assumption.
Qed.

Lemma returned_kernel_entries_witness :
  exists fp,
    voxel_footprints [0%Z] 0 one_voxel = Ok fp
    /\ forall k t,
        (k < 1 * 1)%nat -> (t < 2 * 1 + 1)%nat ->
        let m := nth k (mp fp) 0 in
        let c := (round m - Z.of_nat 1 + Z.of_nat t)%Z in
        let tau := bidx (1 * 1) t in
        let cos_alpha := nth tau (cos_alpha_col fp) 0 in
        lookup (mkArray2 3 [[-1; 0; 1]]%Z) k t = Some c
        /\ lookup (mkArray2 3 [[-1; 0; 1]]%Z) k t = Some c
        /\ lookup (mkArray2 3 [[0; 1; 0]]) k t
           = Some (Spec.weight 1 cos_alpha (Spec.overlap (nth tau (W_col fp) 0) m c) 1
                   * b2r (0 <=? c)%Z * b2r (c <? Z.of_nat 1)%Z)
        /\ lookup (mkArray2 3 [[0; 1; 0]]) k t
           = Some (Spec.weight 1 cos_alpha (Spec.overlap (nth tau (W_row fp) 0) m c) 1
                   * b2r (0 <=? c)%Z * b2r (c <? Z.of_nat 1)%Z).
Proof.
  exact (returned_kernel_entries [0%Z] 0 one_voxel 1 _ _ _ _ (le_n 1) kernel_one_voxel).
Defined.

(** X12 (weights are not negative). With a voxel pitch that is not
    negative and positive detector pitches, every entry of Bij_value and
    Cij_value of a returned kernel is greater than or equal to 0. *)
Theorem returned_weights_are_nonnegative idx angle pp p Bv Bc Cv Cr :
  (1 <= p)%nat ->
  0 <= delta_pixel_recon (geometry pp) ->
  0 < delta_det_channel (geometry pp) -> 0 < delta_det_row (geometry pp) ->
  compute_sparse_Bij_Cij_single_view idx angle pp p = Ok (Bv, Bc, Cv, Cr) ->
  forall k t w, lookup Bv k t = Some w \/ lookup Cv k t = Some w -> 0 <= w.
Proof.
  intros Hp Hdp Hdc Hdr H k t w Hw.
  apply compute_sparse_inv in H as (fp & F & B & C).
  pose proof (footprints_length _ _ _ _ F) as (Hm & _ & Hc & _ & Hwc & Hwr).
  cbn zeta in Hm, Hc, Hwc, Hwr.
  assert (Lc : length (cos_alpha_col fp) = length (mp fp)) by congruence.
  assert (Lwc : length (W_col fp) = length (mp fp)) by congruence.
  assert (Lwr : length (W_row fp) = length (mp fp)) by congruence.
  destruct Hw as [Hw|Hw].
  - eapply (sparse_entries_nonneg _ _ _ _ _ _ _ _ _ Hp Lwc Lc
              Hdp Hdc (fun n Hn => footprints_cos_alpha_col_pos _ _ _ _ n F Hn) B), Hw.
  - eapply (sparse_entries_nonneg _ _ _ _ _ _ _ _ _ Hp Lwr Lc
              Hdp Hdr (fun n Hn => footprints_cos_alpha_col_pos _ _ _ _ n F Hn) C), Hw.
Qed.

Lemma returned_weights_are_nonnegative_witness :
  lookup (mkArray2 3 [[0; 1; 0]]) 0 1 = Some 1 /\ 0 <= 1.
Proof.
  split; [reflexivity|].
  exact (returned_weights_are_nonnegative [0%Z] 0 one_voxel 1 _ _ _ _
           (le_n 1) ltac:(cbn; lra) ltac:(cbn; lra) ltac:(cbn; lra)
           kernel_one_voxel 0%nat 1%nat 1 (or_introl eq_refl)).
Defined.

Lemma Rabs_bound x y : Rabs x <= y -> - y <= x <= y.
Proof. unfold Rabs. destruct (Rcase_abs x); lra. Qed.

Lemma round_close x : Rabs (IZR (round x) - x) <= 1 / 2.
Proof.
  unfold round.
  pose proof (Zfloor_bound x) as [Hlo Hhi].
  destruct (Rlt_dec (x - IZR (Zfloor x)) (1 / 2)) as [H1|H1].
  - apply Rabs_le. lra.
  - destruct (Rlt_dec (1 / 2) (x - IZR (Zfloor x))) as [H2|H2].
    + rewrite plus_IZR. apply Rabs_le. lra.
    + destruct (Z.even (Zfloor x)).
      * apply Rabs_le. lra.
      * rewrite plus_IZR. apply Rabs_le. lra.
Qed.

Lemma overlap_sum m r w :
  Rabs (IZR r - m) <= 1 / 2 -> 0 <= w <= 2 ->
  Spec.overlap w m (r - 1) + Spec.overlap w m r + Spec.overlap w m (r + 1) = w.
Proof.
  intros Hr Hw. unfold Spec.overlap. rewrite minus_IZR, plus_IZR.
  set (d := IZR r - m) in *.
  assert (Hd : - (1 / 2) <= d <= 1 / 2) by (apply Rabs_bound in Hr; lra).
  replace (IZR r - 1 - m) with (d - 1) by (unfold d; ring).
  replace (IZR r + 1 - m) with (d + 1) by (unfold d; ring).
  rewrite (Rabs_left1 (d - 1)) by lra. rewrite (Rabs_pos_eq (d + 1)) by lra.
  unfold Rabs. destruct (Rcase_abs d); destruct (Rcase_abs (w - 1));
    unfold Rmax; repeat (destruct (Rle_dec _ _)); lra.
Qed.

Lemma b2r_true b : b = true -> b2r b = 1.
Proof. intros ->. reflexivity. Qed.

(** In a call with a single pair and radius 1, when the window lies in the
    detector and the footprint is at most two cells wide, the three
    weights add up to the whole footprint. *)
Lemma sparse_entries_single_sum frac W ca dp dd nd value index :
  length frac = 1%nat -> length W = 1%nat -> length ca = 1%nat ->
  sparse_entries frac W ca dp dd nd 1 = Ok (value, index) ->
  (1 <= round (nth 0 frac 0%R))%Z -> (round (nth 0 frac 0%R) + 1 < Z.of_nat nd)%Z ->
  0 <= nth 0 W 0 <= 2 ->
  get value 0 0 + get value 0 1 + get value 0 2 = (dp / nth 0 ca 0) * (nth 0 W 0 / dd).
Proof.
  intros Lf LW Lca Hs Hlo Hhi Hw.
  assert (HW : length W = length frac) by congruence.
  assert (Hca : length ca = length frac) by congruence.
  pose proof (sparse_entries_entry _ _ _ _ _ _ _ _ _ (le_n 1) HW Hca Hs) as He.
  rewrite Lf in He.
  destruct (He 0%nat 0%nat ltac:(lia) ltac:(lia)) as (_ & _ & E0).
  destruct (He 0%nat 1%nat ltac:(lia) ltac:(lia)) as (_ & _ & E1).
  destruct (He 0%nat 2%nat ltac:(lia) ltac:(lia)) as (_ & _ & E2).
  clear He. cbn [bidx Nat.eqb] in E0, E1, E2.
  set (m := nth 0 frac 0) in *. set (r := round m) in *.
  rewrite overlap_eq in E0, E1, E2.
  replace (r - Z.of_nat 1 + Z.of_nat 0)%Z with (r - 1)%Z in E0 by lia.
  replace (r - Z.of_nat 1 + Z.of_nat 1)%Z with r in E1 by lia.
  replace (r - Z.of_nat 1 + Z.of_nat 2)%Z with (r + 1)%Z in E2 by lia.
  rewrite (b2r_true (0 <=? r - 1)%Z), (b2r_true (r - 1 <? Z.of_nat nd)%Z) in E0
    by (apply Z.leb_le || apply Z.ltb_lt; lia).
  rewrite (b2r_true (0 <=? r)%Z), (b2r_true (r <? Z.of_nat nd)%Z) in E1
    by (apply Z.leb_le || apply Z.ltb_lt; lia).
  rewrite (b2r_true (0 <=? r + 1)%Z), (b2r_true (r + 1 <? Z.of_nat nd)%Z) in E2
    by (apply Z.leb_le || apply Z.ltb_lt; lia).
  rewrite (lookup_get _ _ _ _ E0), (lookup_get _ _ _ _ E1), (lookup_get _ _ _ _ E2).
  pose proof (overlap_sum m r (nth 0 W 0) (round_close m) Hw) as Hsum.
  rewrite <- Hsum at 4. unfold Rdiv. ring.
Qed.

(** X18 (the weights of a pair add up to its footprint). In a call with a
    single (voxel, slice) pair, when the window of three candidates lies
    in the detector and the footprint is at most two cells wide, the three
    entries of Bij_value add up to
    (delta_pixel_recon / cos_alpha_col) * (W_col / delta_det_channel), and
    those of Cij_value to the same with W_row and delta_det_row: no part of
    the footprint is lost by the window. *)
Theorem single_pair_weights_add_up_to_footprint idx angle pp Bv Bc Cv Cr fp :
  (length idx * snd (recon_shape pp))%nat = 1%nat ->
  voxel_footprints idx angle pp = Ok fp ->
  compute_sparse_Bij_Cij_single_view idx angle pp 1 = Ok (Bv, Bc, Cv, Cr) ->
  let g := geometry pp in
  let centre := round (nth 0 (mp fp) 0) in
  let scale := delta_pixel_recon g / nth 0 (cos_alpha_col fp) 0 in
  (1 <= centre)%Z ->
  ((centre + 1 < Z.of_nat (snd (sinogram_shape pp)))%Z -> 0 <= nth 0 (W_col fp) 0 <= 2 ->
   get Bv 0 0 + get Bv 0 1 + get Bv 0 2
   = scale * (nth 0 (W_col fp) 0 / delta_det_channel g))
  /\ ((centre + 1 < Z.of_nat (snd (fst (sinogram_shape pp))))%Z ->
      0 <= nth 0 (W_row fp) 0 <= 2 ->
      get Cv 0 0 + get Cv 0 1 + get Cv 0 2
      = scale * (nth 0 (W_row fp) 0 / delta_det_row g)).
Proof.
  intros HN F HK. cbn zeta. intros Hlo.
  apply compute_sparse_inv in HK as (fp' & F' & B & C).
  assert (fp' = fp) by congruence. subst fp'.
  pose proof (footprints_length _ _ _ _ F) as (Hm & _ & Hc & _ & Hwc & Hwr).
  cbn zeta in Hm, Hc, Hwc, Hwr. rewrite HN in Hm, Hc, Hwc, Hwr.
  split; intros Hhi Hw.
  - exact (sparse_entries_single_sum _ _ _ _ _ _ _ _ Hm Hwc Hc B Hlo Hhi Hw).
  - exact (sparse_entries_single_sum _ _ _ _ _ _ _ _ Hm Hwr Hc C Hlo Hhi Hw).
Qed.

Lemma round_centre_of_three : round ((nat2R 3 - 1) / 2 + 0) = 1%Z.
Proof.
  rewrite nat2R_3. replace ((3 - 1) / 2 + 0) with (IZR 1) by lra. apply round_IZR.
Qed.

Lemma single_pair_weights_add_up_to_footprint_witness :
  exists Bv Bc Cv Cr,
    compute_sparse_Bij_Cij_single_view
      [0%Z] 0 (mkProjector (1, 3, 3)%nat (1, 1, 1)%nat unit_geometry) 1
    = Ok (Bv, Bc, Cv, Cr)
    /\ get Bv 0 0 + get Bv 0 1 + get Bv 0 2 = 2
    /\ get Cv 0 0 + get Cv 0 1 + get Cv 0 2 = 2.
Proof.
  pose proof (footprints_centred_voxel 0 unit_geometry 1 3 3
                ltac:(cbn; lra) ltac:(cbn; lra) eq_refl) as F.
  pose proof (kernel_centred_voxel 0 unit_geometry 1 3 3
                ltac:(cbn; lra) ltac:(cbn; lra) eq_refl) as HK.
  cbn zeta in HK.
  do 4 eexists. split; [exact HK|].
  destruct (single_pair_weights_add_up_to_footprint
              [0%Z] 0 (mkProjector (1, 3, 3)%nat (1, 1, 1)%nat unit_geometry)
              _ _ _ _ _ eq_refl F HK) as [HB HC].
  { cbn [mp nth unit_geometry det_row_offset]. rewrite round_centre_of_three. lia. }
  assert (Hhi : (round (nth 0 [((nat2R 3 - 1) / 2 + det_row_offset unit_geometry)%R] 0%R) + 1
                 < Z.of_nat 3)%Z).
  { cbn [nth unit_geometry det_row_offset]. rewrite round_centre_of_three. lia. }
  split.
  - rewrite (HB Hhi); cbn [mp nth W_col W_row cos_alpha_col unit_geometry magnification
                           delta_pixel_recon delta_det_channel delta_det_row geometry];
      rewrite ?cos_alpha_on_axis; lra.
  - rewrite (HC Hhi); cbn [mp nth W_col W_row cos_alpha_col unit_geometry magnification
                           delta_pixel_recon delta_det_channel delta_det_row geometry];
      rewrite ?cos_alpha_on_axis; lra.
Defined.

(** ** The two projectors *)













Lemma sum_list_axpby {X} (fz fx fy : X -> R) a b l :
  (forall e, fz e = a * fx e + b * fy e) ->
  sum_list (map fz l) = a * sum_list (map fx l) + b * sum_list (map fy l).
Proof.
  intros H. induction l as [|e l IH]; cbn [map sum_list fold_right]; [ring|].
  unfold sum_list in IH. rewrite IH, H. ring.
Qed.

Lemma axpby_map {X} (fx fy : X -> R) a b l :
  axpby a (map fx l) b (map fy l) = map (fun e => a * fx e + b * fy e) l.
Proof.
  unfold axpby. induction l as [|e l IH]; cbn [map map2]; [reflexivity|].
  f_equal. exact IH.
Qed.

Lemma nth_map2_rows (g : list R -> list R -> list R) l1 l2 k :
  g [] [] = [] -> length l1 = length l2 ->
  nth k (map2 g l1 l2) [] = g (nth k l1 []) (nth k l2 []).
Proof.
  intros Hg. revert l2 k; induction l1 as [|r1 l1 IH]; intros [|r2 l2] k Hl;
    try discriminate.
  - destruct k; cbn; symmetry; exact Hg.
  - destruct k as [|k]; cbn [map2 nth]; [reflexivity|]. apply IH. cbn in Hl. lia.
Qed.

Lemma length_nth_row (y : array2 R) k :
  Forall (fun row => length row = ncols y) (rows y) ->
  length (nth k (rows y) []) = if (k <? nrows y)%nat then ncols y else 0%nat.
Proof.
  intros Hy. destruct (Nat.ltb_spec k (nrows y)) as [Hk|Hk].
  - rewrite Forall_forall in Hy. apply Hy, nth_In, Hk.
  - rewrite nth_overflow by exact Hk. reflexivity.
Qed.

Lemma get_axpby2 a y1 b y2 k t :
  shape2 y1 = shape2 y2 ->
  Forall (fun row => length row = ncols y1) (rows y1) ->
  Forall (fun row => length row = ncols y2) (rows y2) ->
  get (axpby2 a y1 b y2) k t = a * get y1 k t + b * get y2 k t.
Proof.
  intros Hs H1 H2.
  assert (Hr : nrows y1 = nrows y2) by (unfold shape2 in Hs; congruence).
  assert (Hc : ncols y1 = ncols y2) by (unfold shape2 in Hs; congruence).
  unfold get, axpby2; cbn [rows]. change (@default R Default_R) with 0.
  rewrite nth_map2_rows; [|reflexivity|exact Hr].
  apply nth_axpby.
  rewrite (length_nth_row y1 k H1), (length_nth_row y2 k H2), Hr, Hc. reflexivity.
Qed.

Lemma gather_axpby2 a y1 b y2 r c :
  shape2 y1 = shape2 y2 ->
  Forall (fun row => length row = ncols y1) (rows y1) ->
  Forall (fun row => length row = ncols y2) (rows y2) ->
  gather (axpby2 a y1 b y2) r c = a * gather y1 r c + b * gather y2 r c.
Proof.
  intros Hs H1 H2. unfold gather.
  assert (Hr : nrows y1 = nrows y2) by (unfold shape2 in Hs; congruence).
  assert (Hc : ncols y1 = ncols y2) by (unfold shape2 in Hs; congruence).
  rewrite nrows_axpby2 by exact Hr. change (ncols (axpby2 a y1 b y2)) with (ncols y1).
  rewrite <- Hr, <- Hc. apply get_axpby2; assumption.
Qed.

(** X16 (length of the back projection). Whenever the kernel builder
    returns for the shape of the given view, the back projector returns,
    for every coeff_power, a rank-1 array with one value per (voxel, slice)
    pair, N * num_slices in all. *)
Theorem back_projection_has_one_value_per_pair view idx angle pp coeff_power K :
  compute_sparse_Bij_Cij_single_view
    idx angle (mkProjector (1%nat, nrows view, ncols view) (recon_shape pp) (geometry pp)) 1
  = Ok K ->
  exists out,
    back_project_one_view_to_voxel view idx angle pp coeff_power = Ok out
    /\ length out = (length idx * snd (recon_shape pp))%nat.
Proof.
  intros HK. unfold back_project_one_view_to_voxel. rewrite HK.
  destruct K as [[[Bv Bc] Cv] Cr]. cbn [bind].
  destruct (compute_sparse_returned _ _ _ _ _ _ _ _ (le_n 1) HK) as (SB & SBc & _ & SC & _).
  cbn [recon_shape] in SB, SBc, SC.
  unfold shape2 in SB, SBc, SC.
  inversion SB as [[RB CB]]. inversion SBc as [[RBc CBc]]. inversion SC as [[RC CC]].
  rewrite CB, CBc, CC. cbn [can_broadcast_to Nat.eqb orb andb].
  eexists. split; [reflexivity|].
  rewrite length_map, length_seq. reflexivity.
Qed.

Lemma back_projection_has_one_value_per_pair_witness :
  exists out,
    back_project_one_view_to_voxel unit_detector_view [0%Z] 0 one_voxel 1 = Ok out
    /\ length out = (1 * 1)%nat.
Proof.
  exact (back_projection_has_one_value_per_pair unit_detector_view [0%Z] 0 one_voxel 1
           unit_kernel kernel_one_voxel).
Defined.

(** X17 (the back projector is linear in the view). For two detector
    views of the same shape and every coeff_power, where the back projector
    returns, the back projection of a * y1 + b * y2 is
    a * back(y1) + b * back(y2). *)
Theorem back_projection_is_linear_in_the_view a b y1 y2 idx angle pp coeff_power o1 o2 :
  shape2 y1 = shape2 y2 ->
  Forall (fun row => length row = ncols y1) (rows y1) ->
  Forall (fun row => length row = ncols y2) (rows y2) ->
  back_project_one_view_to_voxel y1 idx angle pp coeff_power = Ok o1 ->
  back_project_one_view_to_voxel y2 idx angle pp coeff_power = Ok o2 ->
  back_project_one_view_to_voxel (axpby2 a y1 b y2) idx angle pp coeff_power
  = Ok (axpby a o1 b o2).
Proof.
  intros Hs H1 H2. unfold back_project_one_view_to_voxel.
  assert (Hr : nrows y1 = nrows y2) by (unfold shape2 in Hs; congruence).
  assert (Hc : ncols y1 = ncols y2) by (unfold shape2 in Hs; congruence).
  rewrite nrows_axpby2 by exact Hr. change (ncols (axpby2 a y1 b y2)) with (ncols y1).
  rewrite <- Hr, <- Hc.
  destruct (compute_sparse_Bij_Cij_single_view _ _ _ _)
    as [[[[Bv Bc] Cv] Cr]|e]; cbn [bind]; [|discriminate].
  destruct (_ && _); [|discriminate].
  intros E1 E2. inversion E1; subst o1; clear E1. inversion E2; subst o2; clear E2.
  f_equal. rewrite axpby_map. apply map_ext. intros k.
  apply sum_list_axpby. intros a0.
  apply sum_list_axpby. intros b0.
  rewrite gather_axpby2 by assumption. ring.
Qed.

Lemma back_projection_is_linear_in_the_view_witness :
  back_project_one_view_to_voxel (axpby2 2 unit_detector_view 3 unit_detector_view)
                                 [0%Z] 0 one_voxel 2
  = Ok (axpby 2 [2] 3 [2]).
Proof.
  exact (back_projection_is_linear_in_the_view 2 3 unit_detector_view unit_detector_view
           [0%Z] 0 one_voxel 2 [2] [2] eq_refl
           ltac:(repeat constructor) ltac:(repeat constructor)
           (back_one_voxel 2 2 ltac:(cbn [pow]; lra))
           (back_one_voxel 2 2 ltac:(cbn [pow]; lra))).
Defined.

(** ** Parameter validation *)

Section ValidationOrder.

Variable super_verify_valid_params : model -> result unit.


End ValidationOrder.

